(** * Lucas-Kanade residuals of menpofit ([menpofit/lucaskanade/residual.py])

    A shallow embedding of the five residual classes ([SSD], [GaborFourier],
    [ECC], [GradientImages], [GradientCorrelation]) and of the inherited
    [error] property, together with the properties of the specification
    that concern them.

    Numbers are exact: a [float64] is a rational, or one of the three special
    values of IEEE arithmetic, so that a division by zero yields an infinity
    or a NaN as it does in numpy instead of stopping the computation.  A
    [complex128] is a pair of such numbers.  Arrays are numpy's: a shape and
    the elements in C order. *)

From Stdlib Require Import List Arith ZArith QArith Qcanon Lia Bool.
From Stdlib Require String.
Import ListNotations.

Set Implicit Arguments.
Local Open Scope nat_scope.

(** ** Numbers *)

Module Num.

(** A [float64] without rounding. *)
Inductive num : Type :=
| Fin (q : Qc)
| PInf
| NInf
| NaN.

Definition zero : num := Fin 0%Qc.
Definition one : num := Fin 1%Qc.

Definition of_Z (z : Z) : num := Fin (Q2Qc (inject_Z z)).
Definition of_nat (n : nat) : num := of_Z (Z.of_nat n).

Definition finite (x : num) : bool :=
  match x with Fin _ => true | _ => false end.

Definition sign (q : Qc) : comparison := (q ?= 0)%Qc.

Definition neg (x : num) : num :=
  match x with
  | Fin q => Fin (- q)%Qc
  | PInf => NInf
  | NInf => PInf
  | NaN => NaN
  end.

Definition add (x y : num) : num :=
  match x, y with
  | NaN, _ | _, NaN => NaN
  | Fin a, Fin b => Fin (a + b)%Qc
  | PInf, NInf | NInf, PInf => NaN
  | PInf, _ | _, PInf => PInf
  | NInf, _ | _, NInf => NInf
  end.

Definition sub (x y : num) : num := add x (neg y).

(** An infinity of the sign of [c], NaN when [c] is [Eq] (infinity times
    zero). *)
Definition inf_of (c : comparison) : num :=
  match c with Gt => PInf | Lt => NInf | Eq => NaN end.

Definition mul (x y : num) : num :=
  match x, y with
  | NaN, _ | _, NaN => NaN
  | Fin a, Fin b => Fin (a * b)%Qc
  | PInf, Fin b | Fin b, PInf => inf_of (sign b)
  | NInf, Fin b | Fin b, NInf => inf_of (CompOpp (sign b))
  | PInf, PInf | NInf, NInf => PInf
  | PInf, NInf | NInf, PInf => NInf
  end.

(** numpy's true division: a finite number over zero is an infinity of its
    sign, zero over zero is NaN, and nothing is raised. *)
Definition div (x y : num) : num :=
  match x, y with
  | NaN, _ | _, NaN => NaN
  | Fin a, Fin b =>
      match sign b with
      | Eq => inf_of (sign a)
      | _ => Fin (a / b)%Qc
      end
  | Fin _, _ => zero
  | PInf, Fin b =>
      match sign b with Lt => NInf | _ => PInf end
  | NInf, Fin b =>
      match sign b with Lt => PInf | _ => NInf end
  | _, _ => NaN
  end.

(** [x > y]; false as soon as one side is NaN. *)
Definition gtb (x y : num) : bool :=
  match x, y with
  | NaN, _ | _, NaN => false
  | Fin a, Fin b => match (a ?= b)%Qc with Gt => true | _ => false end
  | PInf, PInf => false
  | PInf, _ => true
  | _, NInf => match x with NInf => false | _ => true end
  | _, _ => false
  end.

(** [np.maximum]: NaN as soon as one side is NaN. *)
Definition maximum (x y : num) : num :=
  match x, y with
  | NaN, _ | _, NaN => NaN
  | _, _ => if gtb y x then y else x
  end.

Definition eqb (x y : num) : bool :=
  match x, y with
  | Fin a, Fin b => Qeq_bool a b
  | PInf, PInf | NInf, NInf | NaN, NaN => true
  | _, _ => false
  end.

End Num.

(** ** Scalars: [float64] and [complex128]

    numpy promotes a real operand to a complex one with a zero imaginary
    part as soon as the other operand is complex. *)

Inductive scalar : Type :=
| Re (x : Num.num)
| Cx (re im : Num.num).

Definition s0 : scalar := Re Num.zero.
Definition s1 : scalar := Re Num.one.
Definition j1 : scalar := Cx Num.zero Num.one.

Definition re_part (s : scalar) : Num.num :=
  match s with Re x => x | Cx a _ => a end.
Definition im_part (s : scalar) : Num.num :=
  match s with Re _ => Num.zero | Cx _ b => b end.

Definition sadd (x y : scalar) : scalar :=
  match x, y with
  | Re a, Re b => Re (Num.add a b)
  | _, _ => Cx (Num.add (re_part x) (re_part y))
               (Num.add (im_part x) (im_part y))
  end.

Definition sneg (x : scalar) : scalar :=
  match x with
  | Re a => Re (Num.neg a)
  | Cx a b => Cx (Num.neg a) (Num.neg b)
  end.

Definition ssub (x y : scalar) : scalar :=
  match x, y with
  | Re a, Re b => Re (Num.sub a b)
  | _, _ => Cx (Num.sub (re_part x) (re_part y))
               (Num.sub (im_part x) (im_part y))
  end.

Definition smul (x y : scalar) : scalar :=
  match x, y with
  | Re a, Re b => Re (Num.mul a b)
  | _, _ =>
      let (a, b) := (re_part x, im_part x) in
      let (c, d) := (re_part y, im_part y) in
      Cx (Num.sub (Num.mul a c) (Num.mul b d))
         (Num.add (Num.mul a d) (Num.mul b c))
  end.

(** A complex number over a real one is divided part by part; over a complex
    one, by the quotient formula. *)
Definition sdiv (x y : scalar) : scalar :=
  match x, y with
  | Re a, Re b => Re (Num.div a b)
  | Cx a b, Re c => Cx (Num.div a c) (Num.div b c)
  | _, Cx c d =>
      let (a, b) := (re_part x, im_part x) in
      let n := Num.add (Num.mul c c) (Num.mul d d) in
      Cx (Num.div (Num.add (Num.mul a c) (Num.mul b d)) n)
         (Num.div (Num.sub (Num.mul b c) (Num.mul a d)) n)
  end.

Definition sconj (x : scalar) : scalar :=
  match x with
  | Re a => Re a
  | Cx a b => Cx a (Num.neg b)
  end.

(** [x > y]; complex numbers are ordered by real part, then imaginary part. *)
Definition sgtb (x y : scalar) : bool :=
  match x, y with
  | Re a, Re b => Num.gtb a b
  | _, _ =>
      Num.gtb (re_part x) (re_part y)
      || (Num.eqb (re_part x) (re_part y)
          && Num.gtb (im_part x) (im_part y))
  end.

Definition smaximum (x y : scalar) : scalar :=
  match x, y with
  | Re a, Re b => Re (Num.maximum a b)
  | _, _ => if sgtb y x then y else x
  end.

Definition sfinite (x : scalar) : bool :=
  match x with
  | Re a => Num.finite a
  | Cx a b => Num.finite a && Num.finite b
  end.

(** Zero of either type: [0.0] and [0j]. *)
Definition is_zero (x : scalar) : Prop :=
  x = Re Num.zero \/ x = Cx Num.zero Num.zero.

Definition seqb (x y : scalar) : bool :=
  match x, y with
  | Re a, Re b => Num.eqb a b
  | Cx a b, Cx c d => Num.eqb a c && Num.eqb b d
  | _, _ => false
  end.

(** ** Exceptions *)

Inductive exn : Type :=
| AttributeError
| TypeError
| ValueError
| IndexError
| LinAlgError.

Inductive result (A : Type) : Type :=
| Ok (a : A)
| Raise (e : exn).
Arguments Ok {A} a.
Arguments Raise {A} e.

Definition bind {A B : Type} (r : result A) (k : A -> result B) : result B :=
  match r with
  | Ok a => k a
  | Raise e => Raise e
  end.

Notation "'do' x <- r ; k" := (bind r (fun x => k))
  (at level 10, x name, r at level 100, k at level 200).

Definition is_ok {A : Type} (r : result A) : bool :=
  match r with Ok _ => true | Raise _ => false end.

(** ** numpy arrays *)

Record ndarray : Type := mk_array { shape : list nat; data : list scalar }.

Definition prod (s : list nat) : nat := fold_right Nat.mul 1 s.

Definition ndim (a : ndarray) : nat := length (shape a).
Definition size (a : ndarray) : nat := length (data a).

(** The elements of an array of shape [s] whose element of index [idx] is
    [f idx], in C order. *)
Fixpoint tab {A : Type} (s : list nat) (f : list nat -> A) : list A :=
  match s with
  | [] => [f []]
  | n :: s' => flat_map (fun i => tab s' (fun idx => f (i :: idx))) (seq 0 n)
  end.

(** The offset of the element of index [idx] in C order. *)
Fixpoint ravel (s idx : list nat) {struct idx} : nat :=
  match idx, s with
  | i :: idx', _ :: s' => i * prod s' + ravel s' idx'
  | _, _ => 0
  end.

Definition get (a : ndarray) (idx : list nat) : scalar :=
  nth (ravel (shape a) idx) (data a) (Re Num.NaN).

Definition in_bounds (s idx : list nat) : Prop :=
  Forall2 (fun i n => i < n) idx s.

Definition of_list (l : list scalar) : ndarray :=
  {| shape := [length l]; data := l |}.

Definition full (s : list nat) (x : scalar) : ndarray :=
  {| shape := s; data := repeat x (prod s) |}.

Definition amap (f : scalar -> scalar) (a : ndarray) : ndarray :=
  {| shape := shape a; data := map f (data a) |}.

(** [a.ravel()], [a.flatten()]. *)
Definition flatten (a : ndarray) : ndarray :=
  {| shape := [size a]; data := data a |}.

(** [a.reshape(dims)], where [None] stands for the [-1] of numpy: the one
    dimension to be inferred. *)
Definition known (dims : list (option nat)) : nat :=
  prod (map (fun d => match d with Some n => n | None => 1 end) dims).

Definition unknowns (dims : list (option nat)) : nat :=
  length (filter (fun d => match d with None => true | Some _ => false end) dims).

Definition reshape (a : ndarray) (dims : list (option nat)) : result ndarray :=
  match unknowns dims with
  | 0 =>
      if known dims =? size a
      then Ok {| shape := map (fun d => match d with Some n => n | None => 1 end) dims;
                 data := data a |}
      else Raise ValueError
  | 1 =>
      if (known dims =? 0) || negb (size a mod known dims =? 0)
      then Raise ValueError
      else Ok {| shape := map (fun d => match d with
                                        | Some n => n
                                        | None => size a / known dims
                                        end) dims;
                 data := data a |}
  | _ => Raise ValueError
  end.

(** Indexing with [None] ([np.newaxis]) among [need] explicit slices:
    [a[:, None, ...]] is [new_axis 1 1 a], [a[:, None, :, :]] is
    [new_axis 1 3 a], and [a[..., None]] is [new_axis (ndim a) 0 a]. *)
Definition new_axis (pos need : nat) (a : ndarray) : result ndarray :=
  if (need <=? ndim a) && (pos <=? ndim a)
  then Ok {| shape := firstn pos (shape a) ++ 1 :: skipn pos (shape a);
             data := data a |}
  else Raise IndexError.

(** Broadcasting. *)
Definition bc_dim (m n : nat) : result nat :=
  if m =? n then Ok m
  else if m =? 1 then Ok n
  else if n =? 1 then Ok m
  else Raise ValueError.

Fixpoint bc_shape (s1 s2 : list nat) : result (list nat) :=
  match s1, s2 with
  | [], [] => Ok []
  | m :: s1', n :: s2' =>
      do d <- bc_dim m n;
      do s <- bc_shape s1' s2';
      Ok (d :: s)
  | _, _ => Raise ValueError
  end.

Definition pad (r : nat) (s : list nat) : list nat :=
  repeat 1 (r - length s) ++ s.

Definition broadcast_shapes (s1 s2 : list nat) : result (list nat) :=
  let r := Nat.max (length s1) (length s2) in
  bc_shape (pad r s1) (pad r s2).

Fixpoint clamp (s idx : list nat) : list nat :=
  match s, idx with
  | n :: s', i :: idx' => (if n =? 1 then 0 else i) :: clamp s' idx'
  | _, _ => []
  end.

(** The index in an operand of shape [s] of the element that is broadcast
    to index [idx] of the result. *)
Definition bc_index (s idx : list nat) : list nat :=
  clamp s (skipn (length idx - length s) idx).

Definition zip_with (op : scalar -> scalar -> scalar) (a b : ndarray)
  : result ndarray :=
  do s <- broadcast_shapes (shape a) (shape b);
  Ok {| shape := s;
        data := tab s (fun idx => op (get a (bc_index (shape a) idx))
                                     (get b (bc_index (shape b) idx))) |}.

Definition broadcast_to (a : ndarray) (s : list nat) : result ndarray :=
  do s' <- broadcast_shapes (shape a) s;
  if list_eq_dec Nat.eq_dec s' s
  then Ok {| shape := s; data := tab s (fun idx => get a (bc_index (shape a) idx)) |}
  else Raise ValueError.

(** [np.sum(a)] and [np.mean(a)]. *)
Definition sum_list (l : list scalar) : scalar := fold_left sadd l s0.
Definition np_sum (a : ndarray) : scalar := sum_list (data a).
Definition np_mean (a : ndarray) : scalar :=
  sdiv (np_sum a) (Re (Num.of_nat (size a))).

(** [np.sum(a, axis=k)]. *)
Definition sum_axis (k : nat) (a : ndarray) : result ndarray :=
  if k <? ndim a
  then
    let s := firstn k (shape a) ++ skipn (S k) (shape a) in
    Ok {| shape := s;
          data := tab s (fun idx =>
            sum_list (map (fun j => get a (firstn k idx ++ j :: skipn k idx))
                          (seq 0 (nth k (shape a) 0)))) |}
  else Raise ValueError.

(** [a[i0, i1, ...]] for leading indices [lead]. *)
Fixpoint in_range (s idx : list nat) {struct idx} : bool :=
  match idx, s with
  | [], _ => true
  | i :: idx', n :: s' => (i <? n) && in_range s' idx'
  | _ :: _, [] => false
  end.

Definition sub_array (a : ndarray) (lead : list nat) : result ndarray :=
  if in_range (shape a) lead
  then
    let s := skipn (length lead) (shape a) in
    Ok {| shape := s;
          data := firstn (prod s) (skipn (ravel (shape a) lead) (data a)) |}
  else Raise IndexError.

(** [a[i0, i1, ...] = b]. *)
Definition set_sub_array (a : ndarray) (lead : list nat) (b : ndarray)
  : result ndarray :=
  if in_range (shape a) lead
  then
    let s := skipn (length lead) (shape a) in
    let off := ravel (shape a) lead in
    do b' <- broadcast_to b s;
    Ok {| shape := shape a;
          data := firstn off (data a) ++ data b'
                    ++ skipn (off + prod s) (data a) |}
  else Raise IndexError.

(** [np.concatenate((a, b), axis=0)]. *)
Definition concatenate0 (a b : ndarray) : result ndarray :=
  match shape a, shape b with
  | m :: sa, n :: sb =>
      if list_eq_dec Nat.eq_dec sa sb
      then Ok {| shape := (m + n) :: sa; data := data a ++ data b |}
      else Raise ValueError
  | _, _ => Raise ValueError
  end.

(** [a.T]. *)
Definition transpose (a : ndarray) : ndarray :=
  {| shape := rev (shape a);
     data := tab (rev (shape a)) (fun idx => get a (rev idx)) |}.

(** [np.dot(a, b)]: the product by a scalar when an operand has no
    dimension, and otherwise the sum of products over the last axis of [a]
    and the last but one of [b] (the only one of a vector). *)
Definition dot (a b : ndarray) : result ndarray :=
  match rev (shape a), rev (shape b) with
  | [], _ => Ok (amap (smul (get a [])) b)
  | _, [] => Ok (amap (fun x => smul x (get b [])) a)
  | k :: ra, [k'] =>
      if k =? k'
      then Ok {| shape := rev ra;
                 data := tab (rev ra) (fun idx =>
                   sum_list (map (fun l => smul (get a (idx ++ [l])) (get b [l]))
                                 (seq 0 k))) |}
      else Raise ValueError
  | k :: ra, m :: k' :: rb =>
      if k =? k'
      then
        let na := length ra in
        let nb := length rb in
        Ok {| shape := rev ra ++ rev rb ++ [m];
              data := tab (rev ra ++ rev rb ++ [m]) (fun idx =>
                let ia := firstn na idx in
                let ib := firstn nb (skipn na idx) in
                let c := skipn (na + nb) idx in
                sum_list (map (fun l => smul (get a (ia ++ [l]))
                                             (get b (ib ++ l :: c)))
                              (seq 0 k))) |}
      else Raise ValueError
  end.

(** The value of a [for d in a: sdi += d] loop that starts from [sdi = 0]:
    the Python integer [0] ([None] here) when [a] has no row, and otherwise
    [0 + a[0] + a[1] + ...].  A 0-d array cannot be iterated over. *)
Definition add_rows (a : ndarray) : result (option ndarray) :=
  match shape a with
  | [] => Raise TypeError
  | n :: _ =>
      fold_left
        (fun acc i =>
           do sdi <- acc;
           do d <- sub_array a [i];
           match sdi with
           | None => Ok (Some (amap (sadd s0) d))
           | Some x => do y <- zip_with sadd x d; Ok (Some y)
           end)
        (seq 0 n) (Ok None)
  end.

(** The truth value of [a > 0] in an [if]: ambiguous for an array of more
    than one element. *)
Definition gt_zero (a : ndarray) : result bool :=
  match data a with
  | [] => Ok false
  | [x] => Ok (sgtb x s0)
  | _ => Raise ValueError
  end.

(** ** Images (menpo's [MaskedImage])

    The pixels are an array of shape [(n_channels, d1, ..., dn)], the mask
    has one boolean per spatial position. *)

Record image : Type := mk_image { pixels : ndarray; mask : list bool }.

Definition n_channels (img : image) : nat := hd 0 (shape (pixels img)).
Definition ishape (img : image) : list nat := tl (shape (pixels img)).
Definition n_dims (img : image) : nat := length (ishape img).
Definition n_true (m : list bool) : nat := length (filter (fun b => b) m).
Definition n_pixels (img : image) : nat := n_true (mask img).

(** The pixels of one channel that the mask keeps. *)
Definition masked (m : list bool) (chan : list scalar) : list scalar :=
  map snd (filter fst (combine m chan)).

Fixpoint chunks (fuel n : nat) (l : list scalar) : list (list scalar) :=
  match fuel with
  | 0 => []
  | S fuel' => firstn n l :: chunks fuel' n (skipn n l)
  end.

(** [image.as_vector()]: channel after channel, the pixels inside the
    mask. *)
Definition as_vector (img : image) : ndarray :=
  of_list (flat_map (masked (mask img))
             (chunks (n_channels img) (prod (ishape img)) (data (pixels img)))).

(** [image.as_vector(keep_channels=True)]. *)
Definition as_vector_keep_channels (img : image) : ndarray :=
  {| shape := [n_channels img; n_pixels img]; data := data (as_vector img) |}.

(** The pixels of one channel once those inside the mask are replaced by
    the values [v], in order. *)
Fixpoint unmasked (m : list bool) (chan v : list scalar) : list scalar :=
  match m, chan with
  | true :: m', _ :: chan' =>
      match v with
      | x :: v' => x :: unmasked m' chan' v'
      | [] => chan
      end
  | false :: m', c :: chan' => c :: unmasked m' chan' v
  | _, _ => chan
  end.

(** [MaskedImage.blank(shape, n_channels=n, mask=m)]. *)
Definition blank (s : list nat) (n : nat) (m : list bool) : image :=
  {| pixels := full (n :: s) s0; mask := m |}.

(** [image.from_vector_inplace(v)]. *)
Definition from_vector_inplace (img : image) (v : ndarray) : result image :=
  if size v =? n_channels img * n_pixels img
  then
    Ok {| pixels :=
            {| shape := shape (pixels img);
               data := concat (map (fun cv => unmasked (mask img) (fst cv) (snd cv))
                         (combine
                            (chunks (n_channels img) (prod (ishape img))
                               (data (pixels img)))
                            (chunks (n_channels img) (n_pixels img) (data v)))) |};
          mask := mask img |}
  else Raise ValueError.

(** [image.from_vector(v)]: a new image, the receiver is left as it is. *)
Definition from_vector (img : image) (v : ndarray) : result image :=
  from_vector_inplace (blank (ishape img) (n_channels img) (mask img)) v.

(** ** What the module imports

    The functions of numpy, scipy and menpo that the residuals call and
    that are not plain data movement. *)

Class Externals : Type := {
  (** the warp of the forward-additive framework *)
  transform : Type;
  (** the keyword arguments of [log_gabor] *)
  gabor_options : Type;
  (** [menpo.feature.gradient(image, fast2d=False)], which raises what
      [np.gradient] raises (on an axis of fewer than two pixels) *)
  gradient : image -> result image;
  (** [image.warp_to_mask(mask, transform, warp_landmarks=False)] *)
  warp_to_mask : image -> list bool -> transform -> image;
  (** [image.set_boundary_pixels()] *)
  set_boundary_pixels : image -> image;
  (** [image.copy()] followed by [normalize_norm_inplace()] *)
  normalize_norm : image -> result image;
  (** [log_gabor(np.ones(image_shape), **kwargs)[2]] *)
  log_gabor : list nat -> gabor_options -> ndarray;
  np_sqrt : scalar -> scalar;
  np_cos : scalar -> scalar;
  np_sin : scalar -> scalar;
  np_angle : scalar -> scalar;
  np_median : ndarray -> scalar;
  fftn : ndarray -> list nat -> ndarray;
  fftshift : ndarray -> list nat -> ndarray;
  (** [scipy.linalg.inv] and [scipy.linalg.norm] *)
  linalg_inv : ndarray -> result ndarray;
  linalg_norm : ndarray -> scalar
}.

(** ** Residual objects

    The attributes that the methods of the five classes set on [self]; an
    attribute that was never set is [None] here, and reading it raises
    [AttributeError]. *)

Record residual : Type := mk_residual {
  _error_img : option ndarray;
  _filter_bank : option ndarray;
  _H_inv : option ndarray;
  _template_grad : option image;
  _grad : option image;
  _cos_phi : option ndarray;
  _sin_phi : option ndarray;
  _N : option nat
}.

Definition fresh : residual :=
  mk_residual None None None None None None None None.

Definition set_error_img (v : ndarray) (r : residual) : residual :=
  mk_residual (Some v) (_filter_bank r) (_H_inv r) (_template_grad r)
    (_grad r) (_cos_phi r) (_sin_phi r) (_N r).
Definition set_filter_bank (v : ndarray) (r : residual) : residual :=
  mk_residual (_error_img r) (Some v) (_H_inv r) (_template_grad r)
    (_grad r) (_cos_phi r) (_sin_phi r) (_N r).
Definition set_H_inv (v : ndarray) (r : residual) : residual :=
  mk_residual (_error_img r) (_filter_bank r) (Some v) (_template_grad r)
    (_grad r) (_cos_phi r) (_sin_phi r) (_N r).
Definition set_template_grad (v : image) (r : residual) : residual :=
  mk_residual (_error_img r) (_filter_bank r) (_H_inv r) (Some v)
    (_grad r) (_cos_phi r) (_sin_phi r) (_N r).
Definition set_grad (v : image) (r : residual) : residual :=
  mk_residual (_error_img r) (_filter_bank r) (_H_inv r) (_template_grad r)
    (Some v) (_cos_phi r) (_sin_phi r) (_N r).
Definition set_cos_phi (v : ndarray) (r : residual) : residual :=
  mk_residual (_error_img r) (_filter_bank r) (_H_inv r) (_template_grad r)
    (_grad r) (Some v) (_sin_phi r) (_N r).
Definition set_sin_phi (v : ndarray) (r : residual) : residual :=
  mk_residual (_error_img r) (_filter_bank r) (_H_inv r) (_template_grad r)
    (_grad r) (_cos_phi r) (Some v) (_N r).
Definition set_N (v : nat) (r : residual) : residual :=
  mk_residual (_error_img r) (_filter_bank r) (_H_inv r) (_template_grad r)
    (_grad r) (_cos_phi r) (_sin_phi r) (Some v).

(** A method: from [self] to a returned value or a raised exception, and
    [self] as the call leaves it. *)
Definition method (A : Type) : Type := residual -> result A * residual.

Definition ret {A : Type} (a : A) : method A := fun self => (Ok a, self).
Definition lift {A : Type} (r : result A) : method A := fun self => (r, self).
Definition mbind {A B : Type} (m : method A) (k : A -> method B) : method B :=
  fun self =>
    match m self with
    | (Ok a, self') => k a self'
    | (Raise e, self') => (Raise e, self')
    end.
Definition getattr {A : Type} (field : residual -> option A) : method A :=
  fun self =>
    match field self with
    | Some v => (Ok v, self)
    | None => (Raise AttributeError, self)
    end.
Definition setattr (upd : residual -> residual) : method unit :=
  fun self => (Ok tt, upd self).

Notation "x <- m ;; k" := (mbind m (fun x => k))
  (at level 61, m at next level, right associativity).
Notation "m ;; k" := (mbind m (fun _ => k))
  (at level 61, right associativity).

Definition square (x : scalar) : scalar := smul x x.
Definition scalar_array (x : scalar) : ndarray := {| shape := []; data := [x] |}.

(** [sdi.reshape((-1, sdi.shape[k]))] at the end of a
    [steepest_descent_images], where [sdi] is the value of the summing loop. *)
Definition reshape_sdi (k : nat) (acc : option ndarray) : result ndarray :=
  match acc with
  | None => Raise AttributeError
  | Some sdi =>
      if k <? ndim sdi
      then reshape sdi [None; Some (nth k (shape sdi) 0)]
      else Raise IndexError
  end.

(** ** class Residual *)

Module Residual.
Section Methods.
Context {E : Externals}.

(** The [error] property. *)
Definition error : method scalar :=
  e <- getattr _error_img ;;
  ret (np_sqrt (np_mean (amap square e))).

Definition _calculate_gradients (img : image)
  (forward : option (image * transform)) : result image :=
  match forward with
  | Some (template, t) =>
      do grad <- gradient img;
      Ok (warp_to_mask grad (mask template) t)
  | None =>
      do grad <- gradient img;
      Ok (set_boundary_pixels grad)
  end.

End Methods.
End Residual.

(** ** class SSD *)

Module SSD.
Section Methods.
Context {E : Externals}.

Definition steepest_descent_images (img : image) (dW_dp : ndarray)
  (forward : option (image * transform)) : method ndarray :=
  lift (do grad <- Residual._calculate_gradients img forward;
        do grad <- reshape (as_vector grad)
                     [Some (n_dims img); Some (n_channels img); None];
        do g <- new_axis (ndim grad) 0 grad;
        do w <- new_axis 1 1 dW_dp;
        do a <- zip_with smul g w;
        do sdi <- add_rows a;
        reshape_sdi 2 sdi).

Definition calculate_hessian (J : ndarray) (J2 : option ndarray)
  : method ndarray :=
  match J2 with
  | None => lift (dot (transpose J) J)
  | Some J2 => lift (dot (transpose J) J2)
  end.

Definition steepest_descent_update (sdi : ndarray) (IWxp template : image)
  : method ndarray :=
  e <- lift (zip_with ssub (as_vector IWxp) (as_vector template)) ;;
  setattr (set_error_img e) ;;
  lift (dot (transpose sdi) e).

End Methods.
End SSD.

(** ** class GaborFourier *)

Module GaborFourier.
Section Methods.
Context {E : Externals}.

(** The keyword arguments of the constructor: [filter_bank] when it is
    given, and those that are passed on to [log_gabor]. *)
Record kwargs : Type := {
  kw_filter_bank : option ndarray;
  kw_log_gabor : gabor_options
}.

Definition __init__ (image_shape : list nat) (kw : kwargs) : result residual :=
  do fb <- match kw_filter_bank kw with
           | Some fb =>
               if list_eq_dec Nat.eq_dec (shape fb) image_shape
               then Ok fb
               else Raise ValueError
           | None => Ok (log_gabor image_shape (kw_log_gabor kw))
           end;
  Ok (set_filter_bank (flatten fb) fresh).

Definition steepest_descent_images (img : image) (dW_dp : ndarray)
  (forward : option (image * transform)) : method ndarray :=
  lift (do gradient_img <- Residual._calculate_gradients img forward;
        let g := as_vector_keep_channels gradient_img in
        do g <- reshape g [None; Some (n_channels img); Some (n_dims img)];
        do w <- new_axis 1 3 dW_dp;
        do g' <- new_axis 2 3 g;
        do p <- zip_with smul w g';
        do sdi <- sum_axis 3 p;
        let sdi_img_channels := n_channels img * nth 1 (shape dW_dp) 0 in
        let sdi_img := blank (ishape gradient_img) sdi_img_channels
                         (mask gradient_img) in
        do sdi_img <- from_vector_inplace sdi_img (flatten sdi);
        let fft_axes := seq 0 (n_dims img) in
        let fft_sdi := fftshift (fftn (pixels sdi_img) fft_axes) fft_axes in
        reshape fft_sdi [None; Some (nth 1 (shape dW_dp) 0)]).

Definition calculate_hessian (sdi : ndarray) : method ndarray :=
  fb <- getattr _filter_bank ;;
  lift (do _ <- (if 0 <? ndim fb then Ok tt else Raise IndexError);
        do _ <- (if 1 <? ndim sdi then Ok tt else Raise IndexError);
        do sdi <- reshape sdi [None; Some (nth 0 (shape fb) 0);
                               Some (nth 1 (shape sdi) 0)];
        do fb' <- new_axis 0 0 fb;
        do fb' <- new_axis (ndim fb') 0 fb';
        do filtered_sdi <- zip_with smul (amap np_sqrt fb') sdi;
        do filtered_sdi <- reshape filtered_sdi
                             [None; Some (last (shape sdi) 0)];
        dot (transpose (amap sconj filtered_sdi)) filtered_sdi).

Definition steepest_descent_update (sdi : ndarray) (IWxp template : image)
  : method ndarray :=
  error_img <- lift (zip_with ssub (pixels IWxp) (pixels template)) ;;
  let fft_axes := seq 0 (n_dims IWxp) in
  let fft_error_img := fftshift (fftn error_img fft_axes) fft_axes in
  fft_error_img <- lift (reshape fft_error_img [None; Some (n_channels IWxp)]) ;;
  fb <- getattr _filter_bank ;;
  filtered_error_img <- lift (do fb' <- new_axis (ndim fb) 0 fb;
                              zip_with smul fb' fft_error_img) ;;
  setattr (set_error_img (flatten filtered_error_img)) ;;
  lift (dot (transpose sdi) (amap sconj (flatten filtered_error_img))).

End Methods.
End GaborFourier.

(** ** class ECC *)

Module ECC.
Section Methods.
Context {E : Externals}.

Definition _normalise_images (img : image) : result image :=
  normalize_norm img.

Definition steepest_descent_images (img : image) (dW_dp : ndarray)
  (forward : option (image * transform)) : method ndarray :=
  lift (do norm_image <- _normalise_images img;
        do grad <- Residual._calculate_gradients norm_image forward;
        do grad <- reshape (as_vector grad)
                     [Some (n_dims img); Some (n_channels img); None];
        do g <- new_axis (ndim grad) 0 grad;
        do w <- new_axis 1 1 dW_dp;
        do a <- zip_with smul g w;
        do sdi <- add_rows a;
        reshape_sdi 2 sdi).

Definition calculate_hessian (sdi : ndarray) : method ndarray :=
  H <- lift (dot (transpose sdi) sdi) ;;
  H_inv <- lift (linalg_inv H) ;;
  setattr (set_H_inv H_inv) ;;
  ret H.

(** The step size of the branch [den <= 0]. *)
Definition fallback_lambda (num2 den den3 : ndarray) : result ndarray :=
  do q <- zip_with sdiv num2 den3;
  let l1 := amap np_sqrt q in
  do l2 <- zip_with sdiv (amap sneg den) den3;
  zip_with smaximum l1 l2.

(** In [steepest_descent_update], from the steepest descent images and the
    two normalised vectors: the projection [Gt], the numerator [num], its
    term [num2] and the denominator [den]; then the step size [l]. *)
Definition projections (sdi normalised_IWxp normalised_template : ndarray)
  : method (ndarray * ndarray * ndarray * ndarray) :=
  Gt <- lift (dot (transpose sdi) normalised_template) ;;
  Gw <- lift (dot (transpose sdi) normalised_IWxp) ;;
  let IWxp_norm := linalg_norm normalised_IWxp in
  let num1 := scalar_array (square IWxp_norm) in
  H_inv <- getattr _H_inv ;;
  num2 <- lift (do x <- dot H_inv Gw; dot (transpose Gw) x) ;;
  num <- lift (zip_with ssub num1 num2) ;;
  den1 <- lift (dot normalised_template normalised_IWxp) ;;
  H_inv <- getattr _H_inv ;;
  den2 <- lift (do x <- dot H_inv Gw; dot (transpose Gt) x) ;;
  den <- lift (zip_with ssub den1 den2) ;;
  ret (Gt, num, num2, den).

Definition step_size (sdi normalised_IWxp normalised_template : ndarray)
  : method ndarray :=
  p <- projections sdi normalised_IWxp normalised_template ;;
  let Gt := fst (fst (fst p)) in
  let num := snd (fst (fst p)) in
  let num2 := snd (fst p) in
  let den := snd p in
  positive <- lift (gt_zero den) ;;
  if positive : bool
  then lift (zip_with sdiv num den)
  else
    H_inv <- getattr _H_inv ;;
    den3 <- lift (do x <- dot H_inv Gt; dot (transpose Gt) x) ;;
    lift (fallback_lambda num2 den den3).

Definition steepest_descent_update (sdi : ndarray) (IWxp template : image)
  : method ndarray :=
  normalised_IWxp <- lift (do i <- _normalise_images IWxp; Ok (as_vector i)) ;;
  normalised_template <-
    lift (do i <- _normalise_images template; Ok (as_vector i)) ;;
  l <- step_size sdi normalised_IWxp normalised_template ;;
  e <- lift (do x <- zip_with smul l normalised_IWxp;
             zip_with ssub x normalised_template) ;;
  setattr (set_error_img e) ;;
  lift (dot (transpose sdi) e).

End Methods.
End ECC.

(** ** class GradientImages *)

Module GradientImages.
Section Methods.
Context {E : Externals}.

Definition _regularise_gradients (grad : image) : result image :=
  let pixels := pixels grad in
  do s <- sum_axis 0 (amap square pixels);
  let ab := amap np_sqrt s in
  let m_ab := np_median ab in
  let ab := amap (fun x => sadd x m_ab) ab in
  do q <- zip_with sdiv pixels ab;
  Ok {| pixels := q; mask := mask grad |}.

Definition steepest_descent_images (img : image) (dW_dp : ndarray)
  (forward : option (image * transform)) : method ndarray :=
  let n_dims := n_dims img in
  let n_channels := n_channels img in
  template_grad <-
    lift (do first_grad <- Residual._calculate_gradients img forward;
          _regularise_gradients first_grad) ;;
  setattr (set_template_grad template_grad) ;;
  template_grad <- getattr _template_grad ;;
  lift (do second_grad <- Residual._calculate_gradients template_grad None;
        do second_grad <- reshape (pixels second_grad)
                            [Some n_dims; Some n_dims; Some n_channels; None];
        do x <- sub_array second_grad [0; 1];
        do second_grad <- set_sub_array second_grad [1; 0] x;
        do g <- new_axis (ndim second_grad) 0 second_grad;
        do w <- new_axis 1 1 dW_dp;
        do w <- new_axis 1 1 w;
        do a <- zip_with smul g w;
        do sdi <- add_rows a;
        reshape_sdi 3 sdi).

Definition calculate_hessian (sdi : ndarray) : method ndarray :=
  lift (dot (transpose sdi) sdi).

Definition steepest_descent_update (sdi : ndarray) (IWxp template : image)
  : method ndarray :=
  IWxp_grad <- lift (do IWxp_grad <- Residual._calculate_gradients IWxp None;
                     _regularise_gradients IWxp_grad) ;;
  template_grad <- getattr _template_grad ;;
  e <- lift (zip_with ssub (as_vector IWxp_grad) (as_vector template_grad)) ;;
  setattr (set_error_img e) ;;
  lift (dot (transpose sdi) e).

End Methods.
End GradientImages.

(** ** class GradientCorrelation *)

Module GradientCorrelation.
Section Methods.
Context {E : Externals}.

(** [np.angle(gx + 1j * gy)]. *)
Definition orientation (gx gy : ndarray) : result ndarray :=
  do z <- zip_with sadd gx (amap (smul j1) gy);
  Ok (amap np_angle z).

Definition steepest_descent_images (img : image) (dW_dp : ndarray)
  (forward : option (image * transform)) : method ndarray :=
  let n_dims := n_dims img in
  let n_channels := n_channels img in
  grad <- lift (Residual._calculate_gradients img forward) ;;
  setattr (set_grad grad) ;;
  grad <- getattr _grad ;;
  hw <- lift (match ishape grad with
              | [h; w] => Ok (h, w)
              | _ => Raise ValueError
              end) ;;
  let (h, w) := hw : nat * nat in
  phi <- lift (do grad2 <- reshape (as_vector grad)
                             [Some n_dims; Some n_channels; Some h; Some w];
               do gx <- sub_array grad2 [1];
               do gy <- sub_array grad2 [0];
               orientation gx gy) ;;
  setattr (set_cos_phi (amap np_cos phi)) ;;
  setattr (set_sin_phi (amap np_sin phi)) ;;
  sin_phi <- getattr _sin_phi ;;
  cos_phi <- getattr _cos_phi ;;
  grad <- getattr _grad ;;
  (* the image that [from_vector] builds is dropped *)
  _ <- lift (do c <- concatenate0 sin_phi cos_phi;
             from_vector grad (flatten c)) ;;
  grad <- getattr _grad ;;
  second_grad <- lift (do second_grad <-
                            Residual._calculate_gradients grad None;
                       do second_grad <-
                            reshape (pixels second_grad)
                              [Some n_dims; Some n_dims; Some n_channels; None];
                       do x <- sub_array second_grad [0; 1];
                       set_sub_array second_grad [1; 0] x) ;;
  cos_phi <- getattr _cos_phi ;;
  cos_phi <- lift (reshape (flatten cos_phi) [Some n_channels; None]) ;;
  setattr (set_cos_phi cos_phi) ;;
  sin_phi <- getattr _sin_phi ;;
  sin_phi <- lift (reshape (flatten sin_phi) [Some n_channels; None]) ;;
  setattr (set_sin_phi sin_phi) ;;
  sin_phi <- getattr _sin_phi ;;
  second_grad <- lift (do s <- new_axis 0 0 sin_phi;
                       do x <- sub_array second_grad [1];
                       do y <- zip_with smul (amap sneg s) x;
                       set_sub_array second_grad [1] y) ;;
  cos_phi <- getattr _cos_phi ;;
  second_grad <- lift (do c <- new_axis 0 0 cos_phi;
                       do x <- sub_array second_grad [0];
                       do y <- zip_with smul c x;
                       set_sub_array second_grad [0] y) ;;
  sdi <- lift (do g <- new_axis (ndim second_grad) 0 second_grad;
               do w <- new_axis 1 1 dW_dp;
               do w <- new_axis 1 1 w;
               do aux <- zip_with smul g w;
               do aux <- reshape aux (None :: map Some (skipn 2 (shape aux)));
               add_rows aux) ;;
  setattr (set_N (h * w)) ;;
  lift (reshape_sdi 2 sdi).

Definition calculate_hessian (sdi : ndarray) : method ndarray :=
  lift (dot (transpose sdi) sdi).

(** In [steepest_descent_update]: the orientation [phi] of the gradient of
    the warped image, and what the method computes before it scales its
    result, the update [sdu], the correlation [qp] and the step size [l]. *)
Definition warped_orientation (IWxp : image) : result ndarray :=
  let n_dims := n_dims IWxp in
  let n_channels := n_channels IWxp in
  do IWxp_grad <- Residual._calculate_gradients IWxp None;
  do IWxp_grad <- reshape (as_vector IWxp_grad)
                    [Some n_dims; Some n_channels; None];
  do gx <- sub_array IWxp_grad [1];
  do gy <- sub_array IWxp_grad [0];
  orientation gx gy.

Definition update_terms (sdi : ndarray) (IWxp : image)
  : method (ndarray * scalar * scalar) :=
  phi <- lift (warped_orientation IWxp) ;;
  let IWxp_cos_phi := amap np_cos phi in
  let IWxp_sin_phi := amap np_sin phi in
  cos_phi <- getattr _cos_phi ;;
  a <- lift (zip_with smul cos_phi IWxp_sin_phi) ;;
  sin_phi <- getattr _sin_phi ;;
  e <- lift (do b <- zip_with smul sin_phi IWxp_cos_phi;
             zip_with ssub a b) ;;
  setattr (set_error_img (flatten e)) ;;
  e <- getattr _error_img ;;
  sdu <- lift (dot (transpose sdi) e) ;;
  cos_phi <- getattr _cos_phi ;;
  a <- lift (zip_with smul cos_phi IWxp_cos_phi) ;;
  sin_phi <- getattr _sin_phi ;;
  s <- lift (do b <- zip_with smul sin_phi IWxp_sin_phi;
             zip_with sadd a b) ;;
  let qp := np_sum s in
  N <- getattr _N ;;
  let l := sdiv (Re (Num.of_nat N)) qp in
  ret (sdu, qp, l).

Definition steepest_descent_update (sdi : ndarray) (IWxp template : image)
  : method ndarray :=
  t <- update_terms sdi IWxp ;;
  let '(sdu, _, l) := t in
  ret (amap (smul l) sdu).

End Methods.
End GradientCorrelation.

(** ** The five classes behind one interface *)

Inductive residual_type : Type :=
| T_SSD
| T_GaborFourier
| T_ECC
| T_GradientImages
| T_GradientCorrelation.

Section Dispatch.
Context {E : Externals}.

Definition steepest_descent_images (t : residual_type) (img : image)
  (dW_dp : ndarray) (forward : option (image * transform)) : method ndarray :=
  match t with
  | T_SSD => SSD.steepest_descent_images img dW_dp forward
  | T_GaborFourier => GaborFourier.steepest_descent_images img dW_dp forward
  | T_ECC => ECC.steepest_descent_images img dW_dp forward
  | T_GradientImages => GradientImages.steepest_descent_images img dW_dp forward
  | T_GradientCorrelation =>
      GradientCorrelation.steepest_descent_images img dW_dp forward
  end.

(** A call [residual.calculate_hessian(sdi)] or
    [residual.calculate_hessian(sdi, sdi2)]: only [SSD] declares the second
    parameter, the call raises [TypeError] on the other classes. *)
Definition calculate_hessian (t : residual_type) (sdi : ndarray)
  (sdi2 : option ndarray) : method ndarray :=
  match t, sdi2 with
  | T_SSD, _ => SSD.calculate_hessian sdi sdi2
  | _, Some _ => lift (Raise TypeError)
  | T_GaborFourier, None => GaborFourier.calculate_hessian sdi
  | T_ECC, None => ECC.calculate_hessian sdi
  | T_GradientImages, None => GradientImages.calculate_hessian sdi
  | T_GradientCorrelation, None => GradientCorrelation.calculate_hessian sdi
  end.

Definition steepest_descent_update (t : residual_type) (sdi : ndarray)
  (IWxp template : image) : method ndarray :=
  match t with
  | T_SSD => SSD.steepest_descent_update sdi IWxp template
  | T_GaborFourier => GaborFourier.steepest_descent_update sdi IWxp template
  | T_ECC => ECC.steepest_descent_update sdi IWxp template
  | T_GradientImages => GradientImages.steepest_descent_update sdi IWxp template
  | T_GradientCorrelation =>
      GradientCorrelation.steepest_descent_update sdi IWxp template
  end.

End Dispatch.

(** ** A model of the imported functions

    Executable versions of the functions of numpy, scipy and menpo, over the
    exact numbers, on which the residuals can be run.  The arithmetic is
    exact; a square root, a cosine, a sine or an angle is exact where its
    value is rational (the square root of a square, the angle of a
    non-negative real, the cosine and the sine of zero) and a rational
    approximation elsewhere.  The only transform is the identity and the
    only filter bank that [log_gabor] designs lets every frequency pass. *)

Module Model.

Definition qleb (a b : Qc) : bool :=
  match (a ?= b)%Qc with Gt => false | _ => true end.

Definition q_of_Z (z : Z) : Qc := Q2Qc (inject_Z z).

Definition sqrt_scale : Z := 2 ^ 32.

(** The square root of a non-negative rational [n/d], as
    [sqrt (n * d) / d], the integer square root being taken to 32 binary
    places. *)
Definition qsqrt (q : Qc) : Qc :=
  let n := Qnum q in
  let d := Z.pos (Qden q) in
  Q2Qc (Qmake (Z.sqrt (n * d * sqrt_scale * sqrt_scale))
              (Z.to_pos (d * sqrt_scale))).

Definition num_sqrt (x : Num.num) : Num.num :=
  match x with
  | Num.Fin q =>
      match Num.sign q with
      | Lt => Num.NaN
      | _ => Num.Fin (qsqrt q)
      end
  | Num.PInf => Num.PInf
  | _ => Num.NaN
  end.

Definition two : Num.num := Num.of_Z 2.

Definition sqrt (s : scalar) : scalar :=
  match s with
  | Re x => Re (num_sqrt x)
  | Cx a b =>
      let m := num_sqrt (Num.add (Num.mul a a) (Num.mul b b)) in
      let im := num_sqrt (Num.div (Num.sub m a) two) in
      Cx (num_sqrt (Num.div (Num.add m a) two))
         (if Num.gtb Num.zero b then Num.neg im else im)
  end.

(** The partial sums of the series of the cosine and of the sine. *)
Fixpoint series (n : nat) (k : Z) (term acc x2 : Qc) : Qc :=
  match n with
  | 0 => acc
  | S n' =>
      let term' := (- term * x2 / q_of_Z ((k + 1) * (k + 2)))%Qc in
      series n' (k + 2)%Z term' (acc + term')%Qc x2
  end.

Definition qcos (x : Qc) : Qc := series 14 0 1%Qc 1%Qc (x * x)%Qc.
Definition qsin (x : Qc) : Qc := series 14 1 x x (x * x)%Qc.

Definition qpi : Qc := Q2Qc (355 # 113).

Definition qatan (t : Qc) : Qc :=
  (t * (q_of_Z 15 + q_of_Z 4 * t * t) / (q_of_Z 15 + q_of_Z 9 * t * t))%Qc.

Definition qabs (x : Qc) : Qc := if qleb 0%Qc x then x else (- x)%Qc.

Definition qatan2 (y x : Qc) : Qc :=
  if qleb (qabs y) (qabs x)
  then
    match Num.sign x with
    | Eq => 0%Qc
    | Gt => qatan (y / x)
    | Lt => if qleb 0%Qc y then (qatan (y / x) + qpi)%Qc
            else (qatan (y / x) - qpi)%Qc
    end
  else
    if qleb 0%Qc y then (qpi / q_of_Z 2 - qatan (x / y))%Qc
    else (- (qpi / q_of_Z 2) - qatan (x / y))%Qc.

Definition on_real (f : Qc -> Qc) (s : scalar) : scalar :=
  match s with
  | Re (Num.Fin q) => Re (Num.Fin (f q))
  | _ => Re Num.NaN
  end.

Definition cos : scalar -> scalar := on_real qcos.
Definition sin : scalar -> scalar := on_real qsin.

Definition angle (s : scalar) : scalar :=
  match s with
  | Re (Num.Fin a) => Re (Num.Fin (qatan2 0%Qc a))
  | Re Num.PInf => Re Num.zero
  | Re Num.NInf => Re (Num.Fin qpi)
  | Cx (Num.Fin a) (Num.Fin b) => Re (Num.Fin (qatan2 b a))
  | _ => Re Num.NaN
  end.

Definition is_nan (s : scalar) : bool :=
  match s with
  | Re Num.NaN | Cx Num.NaN _ | Cx _ Num.NaN => true
  | _ => false
  end.

Fixpoint insert (x : scalar) (l : list scalar) : list scalar :=
  match l with
  | [] => [x]
  | y :: l' => if sgtb x y then y :: insert x l' else x :: l
  end.

Definition sort (l : list scalar) : list scalar := fold_right insert [] l.

Definition median (a : ndarray) : scalar :=
  let l := data a in
  let n := length l in
  if existsb is_nan l || (n =? 0) then Re Num.NaN
  else if Nat.even n
       then sdiv (sadd (nth (n / 2 - 1) (sort l) s0) (nth (n / 2) (sort l) s0))
                 (Re two)
       else nth (n / 2) (sort l) s0.

Definition set_nth (k v : nat) (idx : list nat) : list nat :=
  firstn k idx ++ v :: skipn (S k) idx.

(** The cosine and the sine of [r/n] of a turn, for [r < n], brought back
    to an eighth of a turn; exact on the quarter turns. *)
Definition turn (r n : nat) : Qc * Qc :=
  let arc := fun (a : nat) =>
    (* [a / (8 n)] of a turn, [a <= n] *)
    let x := (qpi * q_of_Z (Z.of_nat a) / q_of_Z (Z.of_nat (4 * n)))%Qc in
    if a =? 0 then (1%Qc, 0%Qc)
    else (series 6 0 1%Qc 1%Qc (x * x)%Qc, series 6 1 x x (x * x)%Qc) in
  let quarter := fun (a : nat) =>
    (* [a / (8 n)] of a turn, [a <= 2 n] *)
    if a <=? n then arc a
    else let (c, s) := arc (2 * n - a) in (s, c) in
  let half := fun (a : nat) =>
    (* [a / (8 n)] of a turn, [a <= 4 n] *)
    if a <=? 2 * n then quarter a
    else let (c, s) := quarter (4 * n - a) in ((- c)%Qc, s) in
  if 8 * r <=? 4 * n then half (8 * r)
  else let (c, s) := half (8 * n - 8 * r) in (c, (- s)%Qc).

(** [exp(-2 i pi m / n)]. *)
Definition twiddle (n m : nat) : scalar :=
  let (c, s) := turn (m mod n) n in
  Cx (Num.Fin c) (Num.Fin (- s)%Qc).

Definition dft_axis (a : ndarray) (k : nat) : ndarray :=
  let n := nth k (shape a) 0 in
  {| shape := shape a;
     data := tab (shape a) (fun idx =>
       sum_list (map (fun j => smul (get a (set_nth k j idx))
                                    (twiddle n (j * nth k idx 0)))
                     (seq 0 n))) |}.

Definition fftn (a : ndarray) (axes : list nat) : ndarray :=
  fold_left dft_axis axes a.

Definition shift_axis (a : ndarray) (k : nat) : ndarray :=
  let n := nth k (shape a) 0 in
  {| shape := shape a;
     data := tab (shape a) (fun idx =>
       get a (set_nth k ((nth k idx 0 + n - n / 2) mod n) idx)) |}.

Definition fftshift (a : ndarray) (axes : list nat) : ndarray :=
  fold_left shift_axis axes a.

Definition drop_nth {A : Type} (j : nat) (l : list A) : list A :=
  firstn j l ++ skipn (S j) l.

Definition alt (j : nat) : scalar := if Nat.even j then s1 else sneg s1.

(** The determinant, by expansion along the first row. *)
Fixpoint det (n : nat) (m : list (list scalar)) : scalar :=
  match n with
  | 0 => s1
  | S n' =>
      match m with
      | [] => s0
      | row :: rest =>
          sum_list (map (fun j => smul (smul (alt j) (nth j row s0))
                                       (det n' (map (drop_nth j) rest)))
                        (seq 0 n))
      end
  end.

(** [scipy.linalg.inv]: [ValueError] unless the array is a square matrix of
    finite numbers, [LinAlgError] when the matrix is singular. *)
Definition inv (a : ndarray) : result ndarray :=
  match shape a with
  | [n; n'] =>
      if (n =? n') && forallb sfinite (data a)
      then
        let m := chunks n n (data a) in
        let d := det n m in
        if seqb d s0 || seqb d (Cx Num.zero Num.zero)
        then Raise LinAlgError
        else Ok {| shape := [n; n];
                   data := tab [n; n] (fun idx =>
                     let i := nth 0 idx 0 in
                     let j := nth 1 idx 0 in
                     sdiv (smul (alt (i + j))
                                (det (n - 1) (map (drop_nth i) (drop_nth j m))))
                          d) |}
      else Raise ValueError
  | _ => Raise ValueError
  end.

Definition norm (a : ndarray) : scalar :=
  sqrt (sum_list (map (fun x => Re (Num.add (Num.mul (re_part x) (re_part x))
                                            (Num.mul (im_part x) (im_part x))))
                      (data a))).

(** [np.gradient] on every channel, the derivatives along the first axis
    of all the channels first: central differences inside, one-sided
    differences on the border; [ValueError] on an axis of fewer than two
    pixels, on which numpy refuses to differentiate. *)
Definition gradient (img : image) : result image :=
  let C := n_channels img in
  let s := ishape img in
  if negb (forallb (fun n => 2 <=? n) s) then Raise ValueError else
  Ok {| pixels :=
       {| shape := (length s * C) :: s;
          data := tab ((length s * C) :: s) (fun idx =>
            let kc := hd 0 idx in
            let p := tl idx in
            let k := kc / C in
            let c := kc mod C in
            let n := nth k s 0 in
            let i := nth k p 0 in
            let f := fun j => get (pixels img) (c :: set_nth k j p) in
            if i =? 0 then ssub (f 1) (f 0)
            else if i =? n - 1 then ssub (f (n - 1)) (f (n - 2))
            else sdiv (ssub (f (i + 1)) (f (i - 1))) (Re two)) |};
     mask := mask img |}.

Definition mask_at (s : list nat) (m : list bool) (idx : list nat) : bool :=
  nth (ravel s idx) m false.

(** A position of the mask all of whose neighbours along the axes are in
    the mask. *)
Definition interior (s : list nat) (m : list bool) (idx : list nat) : bool :=
  mask_at s m idx
  && forallb (fun k =>
       let i := nth k idx 0 in
       (0 <? i) && (S i <? nth k s 0)
       && mask_at s m (set_nth k (i - 1) idx)
       && mask_at s m (set_nth k (i + 1) idx))
     (seq 0 (length s)).

(** The pixels of the mask that have a neighbour outside of it are set to
    zero. *)
Definition set_boundary_pixels (img : image) : image :=
  let s := ishape img in
  {| pixels :=
       {| shape := shape (pixels img);
          data := tab (shape (pixels img)) (fun idx =>
            if mask_at s (mask img) (tl idx)
               && negb (interior s (mask img) (tl idx))
            then s0
            else get (pixels img) idx) |};
     mask := mask img |}.

Definition warp_to_mask (img : image) (m : list bool) (_ : unit) : image :=
  {| pixels := pixels img; mask := m |}.

(** The image minus its mean, over its norm; an image without variance
    cannot be normalised. *)
Definition normalize_norm (img : image) : result image :=
  let v := as_vector img in
  let mean := np_mean v in
  let centered := amap (fun x => ssub x mean) v in
  let scale := norm centered in
  if seqb scale s0
  then Raise ValueError
  else from_vector_inplace img (amap (fun x => sdiv x scale) centered).

Definition log_gabor (s : list nat) (_ : unit) : ndarray := full s s1.

End Model.

Definition model : Externals := {|
  transform := unit;
  gabor_options := unit;
  gradient := Model.gradient;
  warp_to_mask := Model.warp_to_mask;
  set_boundary_pixels := Model.set_boundary_pixels;
  normalize_norm := Model.normalize_norm;
  log_gabor := Model.log_gabor;
  np_sqrt := Model.sqrt;
  np_cos := Model.cos;
  np_sin := Model.sin;
  np_angle := Model.angle;
  np_median := Model.median;
  fftn := Model.fftn;
  fftshift := Model.fftshift;
  linalg_inv := Model.inv;
  linalg_norm := Model.norm
|}.

(** ** One iteration of the optimiser *)

Section Iteration.
Context {E : Externals}.

(** [SSD()], [ECC()], ...: a new object without attribute, except for
    [GaborFourier(image_shape, **kwargs)]. *)
Definition new (t : residual_type) (image_shape : list nat)
  (kw : GaborFourier.kwargs) : result residual :=
  match t with
  | T_GaborFourier => GaborFourier.__init__ image_shape kw
  | _ => Ok fresh
  end.

(** The three calls in their order, then the read of [error]. *)
Definition iteration (t : residual_type) (img : image) (dW_dp : ndarray)
  (IWxp template : image) : method (ndarray * scalar) :=
  sdi <- steepest_descent_images t img dW_dp None ;;
  _ <- calculate_hessian t sdi None ;;
  u <- steepest_descent_update t sdi IWxp template ;;
  e <- Residual.error ;;
  ret (u, e).

End Iteration.

Definition constant_image (c : scalar) (channels : nat) (s : list nat) : image :=
  {| pixels := full (channels :: s) c; mask := repeat true (prod s) |}.

Definition zeros (s : list nat) : ndarray := full s s0.

Definition all_zero (a : ndarray) : bool :=
  forallb (fun x => seqb x s0 || seqb x (Cx Num.zero Num.zero)) (data a).

Definition all_nan (a : ndarray) : bool := forallb Model.is_nan (data a).


(** ** Inputs on which the residuals are run *)

Definition real (z : Z) : scalar := Re (Num.of_Z z).

Definition no_kwargs : @GaborFourier.kwargs model :=
  @GaborFourier.Build_kwargs model None tt.

Definition with_filter_bank (fb : ndarray) : @GaborFourier.kwargs model :=
  @GaborFourier.Build_kwargs model (Some fb) tt.

(** A matrix of one row and one column. *)
Definition matrix_1x1 (z : Z) : ndarray := {| shape := [1; 1]; data := [real z] |}.

(** An image of one channel with all its pixels in the mask. *)
Definition gray (s : list nat) (l : list Z) : image :=
  {| pixels := {| shape := 1 :: s; data := map real l |};
     mask := repeat true (prod s) |}.

Definition sdi_2x1 : ndarray := {| shape := [2; 1]; data := [real 1; real 2] |}.
Definition image_3_5 : image := gray [1; 2] [3; 5]%Z.
Definition image_1_1 : image := gray [1; 2] [1; 1]%Z.

Definition array_eqb (a b : ndarray) : bool :=
  (if list_eq_dec Nat.eq_dec (shape a) (shape b) then true else false)
  && (length (data a) =? length (data b))
  && forallb (fun xy => seqb (fst xy) (snd xy)) (combine (data a) (data b)).

(** A template of three rows and three columns whose central pixel is the
    mean, the image that is as far below the mean as the template is above
    it, and the Jacobian of the translation along the second axis. *)
Definition template_3x3 : image := gray [3; 3] [2; 4; 2; 0; 2; 4; 2; 0; 2]%Z.
Definition warped_3x3 : image := gray [3; 3] [2; 0; 2; 4; 2; 0; 2; 4; 2]%Z.
Definition translation_3x3 : ndarray :=
  {| shape := [2; 9; 1]; data := repeat (real 0) 9 ++ repeat (real 1) 9 |}.

(** ** Notions that the properties are stated with *)

(** The elements of an array are as many as its shape says. *)
Definition wf (a : ndarray) : Prop := length (data a) = prod (shape a).

(** A method that leaves the cached error vector as it found it. *)
Definition keeps_error {A : Type} (m : method A) : Prop :=
  forall self, _error_img (snd (m self)) = _error_img self.

(** The product [a.T.dot(b)] of two matrices of [n] rows. *)
Definition cross (n k m : nat) (a b : ndarray) : ndarray :=
  {| shape := [k; m];
     data := tab [k; m] (fun idx =>
       sum_list (map (fun l => smul (get a [l; nth 0 idx 0])
                                    (get b [l; nth 1 idx 0]))
                     (seq 0 n))) |}.

(** Three channels that grow along the second axis, and a Jacobian of one
    parameter over their nine pixels. *)
Definition ramps_3x3 : image :=
  {| pixels := {| shape := [3; 3; 3];
                  data := flat_map (fun _ => map real [0; 1; 2]%Z) (seq 0 9) |};
     mask := repeat true 9 |}.

(** [steepest_descent_images] on the three channels, then what
    [steepest_descent_update] computes on the same image. *)
Definition ramps_run : result (ndarray * scalar * scalar) * residual :=
  (sdi <- GradientCorrelation.steepest_descent_images (E:=model) ramps_3x3
            translation_3x3 None ;;
   GradientCorrelation.update_terms (E:=model) sdi ramps_3x3) fresh.



(** One channel that grows along the second axis, the object and the matrix
    that [GradientCorrelation.steepest_descent_images] leaves on it, and the
    orientation of its gradient. *)
Definition ramp_3x3 : image := gray [3; 3] [0; 1; 2; 0; 1; 2; 0; 1; 2]%Z.

Definition ramp_state : residual :=
  snd (GradientCorrelation.steepest_descent_images (E:=model) ramp_3x3
         translation_3x3 None fresh).

Definition ramp_sdi : ndarray :=
  match fst (GradientCorrelation.steepest_descent_images (E:=model) ramp_3x3
               translation_3x3 None fresh) with
  | Ok sdi => sdi
  | Raise _ => zeros []
  end.

Definition ramp_phi : ndarray :=
  match GradientCorrelation.warped_orientation (E:=model) ramp_3x3 with
  | Ok phi => phi
  | Raise _ => zeros []
  end.

(** The cached cosines and sines are those of the orientation of the
    gradient of [IWxp]. *)
Definition same_angles (self : residual) (IWxp : image) : bool :=
  match GradientCorrelation.warped_orientation (E:=model) IWxp,
        _cos_phi self, _sin_phi self with
  | Ok phi, Some c, Some s =>
      array_eqb c (amap Model.cos phi) && array_eqb s (amap Model.sin phi)
  | _, _, _ => false
  end.

(** In the words of the specification: the steepest descent images of [C]
    channels of [P] pixels once the row of each pixel is scaled by the
    square root of the weight of that pixel in the filter bank, and the
    error image in the frequency domain, of [P] pixels of [Cn] channels,
    once each pixel is multiplied by its whole weight. *)
Definition spec_filtered_sdi {E : Externals} (fb sdi : ndarray) (C P K : nat)
  : ndarray :=
  {| shape := [C * P; K];
     data := tab [C * P; K] (fun idx =>
       smul (np_sqrt (get fb [nth 0 idx 0 mod P])) (get sdi idx)) |}.

Definition spec_filtered_error (fb F : ndarray) (P Cn : nat) : ndarray :=
  {| shape := [P * Cn];
     data := tab [P; Cn] (fun idx => smul (get fb [nth 0 idx 0]) (get F idx)) |}.

(** A [GaborFourier] object over images of two rows and two columns whose
    filter bank weighs every frequency by four, a matrix of steepest descent
    images, two images, their difference and its transform. *)
Definition gabor_state : residual :=
  set_filter_bank (flatten (full [2; 2] (real 4))) fresh.
Definition sdi_4x1 : ndarray :=
  {| shape := [4; 1]; data := map real [1; 2; 3; 4]%Z |}.
Definition image_1234 : image := gray [2; 2] [1; 2; 3; 4]%Z.
Definition image_0000 : image := gray [2; 2] [0; 0; 0; 0]%Z.
Definition error_2x2 : ndarray :=
  match zip_with ssub (pixels image_1234) (pixels image_0000) with
  | Ok a => a
  | Raise _ => zeros []
  end.
Definition fft_error_2x2 : ndarray :=
  match reshape (Model.fftshift (Model.fftn error_2x2 [0; 1]) [0; 1])
          [None; Some 1] with
  | Ok a => a
  | Raise _ => zeros []
  end.

(** On an [ECC] object: [steepest_descent_images] and [calculate_hessian] on
    the template, then the terms and the step size that
    [steepest_descent_update] computes for the warped image, and the update
    itself. *)
Definition degenerate_vectors : result (ndarray * ndarray) :=
  do w <- ECC._normalise_images (E:=model) warped_3x3;
  do t <- ECC._normalise_images (E:=model) template_3x3;
  Ok (as_vector w, as_vector t).

Definition degenerate_projections
  : result (ndarray * ndarray * ndarray * ndarray) * residual :=
  (sdi <- ECC.steepest_descent_images (E:=model) template_3x3 translation_3x3
            None ;;
   _ <- ECC.calculate_hessian (E:=model) sdi ;;
   v <- lift degenerate_vectors ;;
   ECC.projections (E:=model) sdi (fst v) (snd v)) fresh.

Definition degenerate_step : result ndarray * residual :=
  (sdi <- ECC.steepest_descent_images (E:=model) template_3x3 translation_3x3
            None ;;
   _ <- ECC.calculate_hessian (E:=model) sdi ;;
   v <- lift degenerate_vectors ;;
   ECC.step_size (E:=model) sdi (fst v) (snd v)) fresh.

Definition degenerate_update : result ndarray * residual :=
  (sdi <- ECC.steepest_descent_images (E:=model) template_3x3 translation_3x3
            None ;;
   _ <- ECC.calculate_hessian (E:=model) sdi ;;
   ECC.steepest_descent_update (E:=model) sdi warped_3x3 template_3x3) fresh.

(** The complex zero [0j], and the scenario of the specification: an image
    of one channel, eight rows and eight columns, of constant intensity, and
    the Jacobians of four parameters, all zeros, in the layout of
    [GaborFourier] and in that of the other classes. *)
Definition c0 : scalar := Cx Num.zero Num.zero.

Definition constant_8x8 (q : Qc) : image :=
  constant_image (Re (Num.Fin q)) 1 [8; 8].

Definition zero_jacobian (t : residual_type) : ndarray :=
  match t with
  | T_GaborFourier => zeros [64; 4; 2]
  | _ => zeros [2; 64; 4]
  end.

Definition real_finite (x : scalar) : Prop := exists q, x = Re (Num.Fin q).


(** The state of a [GradientCorrelation] object after
    [steepest_descent_images] on [constant_8x8]. *)
Definition correlation_state : residual :=
  mk_residual None None None None (Some (constant_image s0 2 [8; 8]))
    (Some (full [1; 64] s1)) (Some (full [1; 64] s0)) (Some 64).

(** A [GaborFourier] object over images of eight rows and eight columns whose
    filter bank weighs every frequency by three. *)
Definition gabor_8x8 : residual :=
  set_filter_bank (flatten (full [8; 8] (real 3))) fresh.

(** The run of the scenario by [ECC] and by [GradientImages]. *)
Definition ECC_constant_run : result (ndarray * scalar) * residual :=
  iteration (E:=model) T_ECC (constant_8x8 (Q2Qc 5)) (zero_jacobian T_ECC)
    (constant_8x8 (Q2Qc 5)) (constant_8x8 (Q2Qc 5)) fresh.

Definition GradientImages_constant_run : result (ndarray * scalar) * residual :=
  iteration (E:=model) T_GradientImages (constant_8x8 (Q2Qc 5))
    (zero_jacobian T_GradientImages)
    (constant_8x8 (Q2Qc 5)) (constant_8x8 (Q2Qc 5)) fresh.

(** * Helpers of the fitters ([menpofit/base.py]) *)

Module Base.
Import String.
Local Open Scope string_scope.

(** ** [name_of_callable] *)

(** What can be called: a function or a class, which has a [__name__]; a
    [functools.partial] around something that can be called; an object of a
    class that defines [__call__], which has no [__name__]. *)
Inductive callable : Type :=
| function (name : string)
| partial (func : callable)
| callable_object (class_name : string).

Definition __name__ (c : callable) : result string :=
  match c with
  | function name => Ok name
  | _ => Raise AttributeError
  end.

(** [c.__class__.__name__] *)
Definition class_name_of (c : callable) : string :=
  match c with
  | function _ => "function"
  | partial _ => "partial"
  | callable_object class_name => class_name
  end.

Fixpoint name_of_callable (c : callable) : result string :=
  let attempt :=
    match c with
    | partial func => name_of_callable func
    | _ => __name__ c
    end in
  match attempt with
  | Raise AttributeError => Ok (class_name_of c)
  | r => r
  end.

(** Names for the examples. *)
Definition name_SSD : string := "SSD".
Definition name_Warp : string := "Warp".

(** ** [batch] *)

(** [sys.maxsize], on a platform of 64 bits. *)
Definition sys_maxsize : Z := (2 ^ 63 - 1)%Z.

Section Batch.
Variable A : Type.

(** [tuple(itertools.islice(it, n))]: the next [n] items of the iterator, and
    the iterator once they are taken; [islice] refuses a stop that is
    negative or above [sys.maxsize]. *)
Definition islice (it : list A) (n : Z) : result (list A * list A) :=
  if (n <? 0)%Z || (sys_maxsize <? n)%Z then Raise ValueError
  else Ok (firstn (Z.to_nat n) it, skipn (Z.to_nat n) it).

(** One turn of the loop: the chunk that is yielded, or [None] when the
    generator returns. *)
Definition batch_next (it : list A) (n : Z)
  : result (option (list A) * list A) :=
  do p <- islice it n;
  match fst p with
  | [] => Ok (None, snd p)
  | chunk => Ok (Some chunk, snd p)
  end.

(** The loop [while True], for at most [fuel] turns. *)
Fixpoint batch_loop (fuel : nat) (it : list A) (n : Z)
  : option (result (list (list A))) :=
  match fuel with
  | 0 => None
  | S fuel' =>
      match batch_next it n with
      | Raise e => Some (Raise e)
      | Ok (None, _) => Some (Ok [])
      | Ok (Some chunk, it') =>
          match batch_loop fuel' it' n with
          | Some (Ok chunks) => Some (Ok (chunk :: chunks))
          | r => r
          end
      end
  end.

(** [list(batch(iterable, n))]; one turn more than there are items is
    enough turns. *)
Definition batch (iterable : list A) (n : Z)
  : option (result (list (list A))) :=
  batch_loop (S (List.length iterable)) iterable n.

End Batch.

(** ** Pyramids of feature images *)

(** What menpo provides: the images, [image.gaussian_pyramid(n_levels,
    downscale)] and [print_progress]. *)
Class Menpo : Type := {
  Img : Type;
  gaussian_pyramid : Img -> nat -> Qc -> list Img;
  print_progress : list Img -> list Img
}.

Section Pyramid.
Context {M : Menpo}.

(** [features]: one callable, or a list of callables. *)
Inductive features : Type :=
| one_feature (f : Img -> Img)
| feature_list (fs : list (Img -> Img)).

Definition is_pyramid_on_features (fs : features) : bool :=
  match fs with
  | one_feature _ => true
  | feature_list _ => false
  end.

Definition feature_images (images : list Img) (fs : list (Img -> Img))
  : list Img :=
  map (fun p => fst p (snd p)) (combine (rev fs) images).

Definition pyramid_of_feature_images (n_levels : nat) (downscale : Qc)
  (fs : features) (image : Img) : list Img :=
  match fs with
  | one_feature f =>
      let feature_image := f image in
      gaussian_pyramid feature_image n_levels downscale
  | feature_list l =>
      let pyramid := gaussian_pyramid image n_levels downscale in
      feature_images pyramid l
  end.

Definition create_pyramid (images : list Img) (n_levels : nat)
  (downscale : Qc) (fs : features) (verbose : bool) : list (list Img) :=
  let will_take_a_while := is_pyramid_on_features fs in
  let images :=
    if will_take_a_while && verbose then print_progress images else images in
  map (pyramid_of_feature_images n_levels downscale fs) images.

(** class [DeformableModel] *)
Record DeformableModel : Type := { model_features : features }.

Definition pyramid_on_features (self : DeformableModel) : bool :=
  is_pyramid_on_features (model_features self).

End Pyramid.

(** ** [build_grid] *)

(** An array of integers. *)
Record int_array : Type := { dims : list nat; ints : list Z }.

Definition int_at (a : int_array) (idx : list nat) : Z :=
  nth (ravel (dims a) idx) (ints a) 0%Z.

(** [a[k]] on a vector. *)
Definition item (a : list Z) (k : nat) : result Z :=
  match nth_error a k with
  | Some x => Ok x
  | None => Raise IndexError
  end.

(** [np.mgrid[a0:b0, a1:b1]]: the row of each position, then its column;
    a slice that stops before it starts asks for a negative dimension, which
    numpy refuses with [ValueError]. *)
Definition mgrid_array (a0 b0 a1 b1 : Z) : int_array :=
  let s := [2; Z.to_nat (b0 - a0); Z.to_nat (b1 - a1)] in
  {| dims := s;
     ints := tab s (fun idx =>
       match idx with
       | [0; i; _] => (a0 + Z.of_nat i)%Z
       | [_; _; j] => (a1 + Z.of_nat j)%Z
       | _ => 0%Z
       end) |}.

Definition mgrid (a0 b0 a1 b1 : Z) : result int_array :=
  if (b0 <? a0)%Z || (b1 <? a1)%Z then Raise ValueError
  else Ok (mgrid_array a0 b0 a1 b1).

(** [np.rollaxis(a, 0, ndim)]: the first axis becomes the last. *)
Definition rollaxis_to_last (a : int_array) : int_array :=
  match dims a with
  | d :: rest =>
      {| dims := (rest ++ [d])%list;
         ints := tab (rest ++ [d])%list (fun idx =>
           int_at a (last idx 0 :: removelast idx)) |}
  | [] => a
  end.

Definition build_grid (shape : list Z) : result int_array :=
  let half_shape := map (fun s => (s / 2)%Z) shape in
  let start := map Z.opp half_shape in
  let stop := map (fun p => (fst p + snd p)%Z)
                (combine half_shape (map (fun s => (s mod 2)%Z) shape)) in
  do a0 <- item start 0;
  do b0 <- item stop 0;
  do a1 <- item start 1;
  do b1 <- item stop 1;
  do sampling_grid <- mgrid a0 b0 a1 b1;
  Ok (rollaxis_to_last sampling_grid).

End Base.

(** The images of the examples: numbers; a pyramid halves its image at each
    level. *)
Definition halving (image : nat) (n_levels : nat) (_ : Qc) : list nat :=
  map (fun k => image / 2 ^ k) (seq 0 n_levels).

Definition numbers : Base.Menpo :=
  {| Base.Img := nat; Base.gaussian_pyramid := halving;
     Base.print_progress := fun images => images |}.

Definition three_features : list (@Base.Img numbers -> @Base.Img numbers) :=
  [Nat.add 100; Nat.add 200; Nat.add 300].

Definition successor : @Base.features numbers :=
  @Base.one_feature numbers S.

Definition two_images : list (@Base.Img numbers) := [8; 9].
Definition image_9 : @Base.Img numbers := 9.

(** [build_grid((3, 5))]. *)
Definition grid_3x5 : Base.int_array :=
  {| Base.dims := [3; 5; 2];
     Base.ints := [-1; -2; -1; -1; -1; 0; -1; 1; -1; 2;
                   0; -2; 0; -1; 0; 0; 0; 1; 0; 2;
                   1; -2; 1; -1; 1; 0; 1; 1; 1; 2]%Z |}.

(** ** What a method writes *)

(** A method that leaves a part of the object as it found it, whether it
    returns or raises. *)
Definition keeps {A B : Type} (part : residual -> B) (m : method A) : Prop :=
  forall self, part (snd (m self)) = part self.

(** The attributes of an object but one, or but those that
    [GradientCorrelation.steepest_descent_images] sets. *)
Definition but_error_img (r : residual) :=
  (_filter_bank r, _H_inv r, _template_grad r, _grad r, _cos_phi r,
   _sin_phi r, _N r).

Definition but_H_inv (r : residual) :=
  (_error_img r, _filter_bank r, _template_grad r, _grad r, _cos_phi r,
   _sin_phi r, _N r).

Definition but_template_grad (r : residual) :=
  (_error_img r, _filter_bank r, _H_inv r, _grad r, _cos_phi r, _sin_phi r,
   _N r).

Definition but_orientations (r : residual) :=
  (_error_img r, _filter_bank r, _H_inv r, _template_grad r).

(** The attribute that [steepest_descent_update] reads and that an earlier
    call must have set, for the classes that have one. *)
Definition unprepared (t : residual_type) (self : residual) : Prop :=
  match t with
  | T_ECC => _H_inv self = None
  | T_GradientImages => _template_grad self = None
  | T_GradientCorrelation => _cos_phi self = None
  | T_SSD | T_GaborFourier => False
  end.

(** ** More inputs of the examples *)

Definition value_or {A : Type} (r : result A) (d : A) : A :=
  match r with
  | Ok a => a
  | Raise _ => d
  end.

(** The gradient of the template, of the template once normalised, and the
    gradient of the gradient. *)
Definition gradient_3x3 : image :=
  value_or (Residual._calculate_gradients (E:=model) template_3x3 None)
    template_3x3.


(** ** Equality as numpy sees it *)







(** An [SSD] object that holds the error vector of an earlier call. *)
Definition stale : residual := set_error_img (of_list [real 7]) fresh.
(** * Properties *)

(** ** Numbers *)

Module NumFacts.
Import Num.

Lemma eqb_eq (x y : num) : eqb x y = true <-> x = y.
Proof.
  destruct x as [a| | |], y as [b| | |]; simpl;
    try (split; [discriminate || reflexivity | discriminate || reflexivity]).
  rewrite Qeq_bool_iff. split.
  - intros H. f_equal. now apply Qc_is_canon.
  - intros H. injection H as ->. reflexivity.
Qed.

Lemma mul_comm (x y : num) : mul x y = mul y x.
Proof.
  destruct x, y; simpl; try reflexivity.
  now rewrite Qcmult_comm.
Qed.


Lemma sub_diag (x : num) : finite x = true -> sub x x = zero.
Proof.
  destruct x; try discriminate. intros _.
  unfold sub, zero. simpl. now rewrite Qcplus_opp_r.
Qed.

Lemma mul_zero_r (x : num) : finite x = true -> mul x zero = zero.
Proof.
  destruct x; try discriminate. intros _.
  unfold zero. simpl. now rewrite Qcmult_0_r.
Qed.

Lemma mul_zero_l (x : num) : finite x = true -> mul zero x = zero.
Proof. intros H. rewrite mul_comm. now apply mul_zero_r. Qed.

Lemma add_zero_zero : add zero zero = zero.
Proof. reflexivity. Qed.

Lemma sign_of_pos (p : positive) : sign (Q2Qc (inject_Z (Z.pos p))) = Gt.
Proof.
  unfold sign, Qccompare, Q2Qc. cbn [this]. now rewrite Qred_correct.
Qed.

Lemma div_zero_pos (p : positive) : div zero (of_Z (Z.pos p)) = zero.
Proof.
  unfold div, zero, of_Z. rewrite sign_of_pos.
  f_equal. unfold Qcdiv. now rewrite Qcmult_0_l.
Qed.

End NumFacts.

Lemma seqb_eq (x y : scalar) : seqb x y = true <-> x = y.
Proof.
  destruct x as [a|a b], y as [c|c d]; simpl; try (split; discriminate).
  - rewrite NumFacts.eqb_eq. split; [intros ->; reflexivity | intros H; now injection H].
  - rewrite andb_true_iff, !NumFacts.eqb_eq.
    split; [intros [-> ->]; reflexivity | intros H; now injection H].
Qed.


(** ** Methods *)

Lemma mbind_ok {A B : Type} (m : method A) (k : A -> method B) self b self' :
  mbind m k self = (Ok b, self') ->
  exists a self1, m self = (Ok a, self1) /\ k a self1 = (Ok b, self').
Proof.
  unfold mbind. destruct (m self) as [[a|e] self1]; intros H.
  - now exists a, self1.
  - discriminate.
Qed.

Lemma mbind_step {A B : Type} (m : method A) (k : A -> method B) self a self1 :
  m self = (Ok a, self1) -> mbind m k self = k a self1.
Proof. unfold mbind. now intros ->. Qed.

Lemma lift_ok {A : Type} (r : result A) self a self' :
  lift r self = (Ok a, self') -> r = Ok a /\ self' = self.
Proof. unfold lift. intros H. injection H as -> ->. now split. Qed.

Lemma getattr_ok {A : Type} (field : residual -> option A) self a self' :
  getattr field self = (Ok a, self') -> field self = Some a /\ self' = self.
Proof.
  unfold getattr. destruct (field self); intros H; [|discriminate].
  injection H as -> ->. now split.
Qed.

Lemma setattr_ok (upd : residual -> residual) self u self' :
  setattr upd self = (Ok u, self') -> self' = upd self.
Proof. unfold setattr. intros H. now injection H. Qed.

Lemma ret_ok {A : Type} (x a : A) self self' :
  ret x self = (Ok a, self') -> a = x /\ self' = self.
Proof. unfold ret. intros H. injection H as -> ->. now split. Qed.

(** Inversion of a method that returned. *)
Ltac minv H :=
  repeat
    (match type of H with
     | mbind _ _ _ = (Ok _, _) =>
         let a := fresh "a" in
         let s := fresh "self" in
         let H1 := fresh "Hm" in
         apply mbind_ok in H; destruct H as (a & s & H1 & H); minv H1
     | lift _ _ = (Ok _, _) =>
         let H1 := fresh "Hr" in
         apply lift_ok in H; destruct H as (H1 & H); subst
     | getattr _ _ = (Ok _, _) =>
         let H1 := fresh "Hg" in
         apply getattr_ok in H; destruct H as (H1 & H); subst
     | setattr _ _ = (Ok _, _) => apply setattr_ok in H; subst
     | ret _ _ = (Ok _, _) =>
         let H1 := fresh "Hv" in
         apply ret_ok in H; destruct H as (H1 & H); subst
     end).


(** ** Arrays *)

Lemma length_flat_map_seq {A : Type} (g : nat -> list A) (m a n : nat) :
  (forall k, length (g k) = m) ->
  length (flat_map g (seq a n)) = n * m.
Proof.
  intros Hg. revert a. induction n as [|n IH]; intros a; cbn [seq flat_map].
  - reflexivity.
  - rewrite length_app, Hg, IH. lia.
Qed.

Lemma nth_flat_map_seq {A : Type} (g : nat -> list A) (m a n i j : nat) (d : A) :
  (forall k, length (g k) = m) ->
  i < n -> j < m ->
  nth (i * m + j) (flat_map g (seq a n)) d = nth j (g (a + i)) d.
Proof.
  intros Hg. revert a i. induction n as [|n IH]; intros a i Hi Hj; [lia|].
  cbn [seq flat_map]. destruct i as [|i].
  - rewrite app_nth1 by (rewrite Hg; lia). now rewrite Nat.add_0_r.
  - rewrite app_nth2 by (rewrite Hg; lia). rewrite Hg.
    replace (S i * m + j - m) with (i * m + j) by lia.
    rewrite IH by lia. f_equal. f_equal. lia.
Qed.

Lemma flat_map_seq_ext {A : Type} (f g : nat -> list A) (a n : nat) :
  (forall i, a <= i < a + n -> f i = g i) ->
  flat_map f (seq a n) = flat_map g (seq a n).
Proof.
  revert a. induction n as [|n IH]; intros a H; cbn [seq flat_map].
  - reflexivity.
  - rewrite (H a) by lia. f_equal. apply IH. intros i Hi. apply H. lia.
Qed.

Lemma length_tab {A : Type} (s : list nat) (f : list nat -> A) :
  length (tab s f) = prod s.
Proof.
  revert f. induction s as [|n s IH]; intros f; cbn [tab prod fold_right].
  - reflexivity.
  - apply length_flat_map_seq. intros k. apply IH.
Qed.

Lemma ravel_lt (s idx : list nat) : in_bounds s idx -> ravel s idx < prod s.
Proof.
  unfold in_bounds. intros H. induction H as [|i n idx s Hi _ IH].
  - cbn. lia.
  - cbn [ravel prod fold_right]. fold (prod s). nia.
Qed.

Lemma nth_tab {A : Type} (s idx : list nat) (f : list nat -> A) (d : A) :
  in_bounds s idx -> nth (ravel s idx) (tab s f) d = f idx.
Proof.
  unfold in_bounds. intros H. revert f.
  induction H as [|i n idx s Hi Hb IH]; intros f.
  - reflexivity.
  - cbn [ravel tab].
    rewrite (nth_flat_map_seq _ (m := prod s)).
    + cbn [Nat.add]. apply IH.
    + intros k. apply length_tab.
    + exact Hi.
    + now apply ravel_lt.
Qed.

Lemma tab_ext {A : Type} (s : list nat) (f g : list nat -> A) :
  (forall idx, in_bounds s idx -> f idx = g idx) -> tab s f = tab s g.
Proof.
  revert f g. induction s as [|n s IH]; intros f g H; cbn [tab].
  - f_equal. apply H. constructor.
  - apply flat_map_seq_ext. intros i Hi. apply IH. intros idx Hidx.
    apply H. constructor; [lia | exact Hidx].
Qed.

Lemma tab_const {A : Type} (s : list nat) (f : list nat -> A) (c : A) :
  (forall idx, in_bounds s idx -> f idx = c) -> tab s f = repeat c (prod s).
Proof.
  revert f. induction s as [|n s IH]; intros f H; cbn [tab prod fold_right].
  - cbn [repeat]. f_equal. apply H. constructor.
  - fold (prod s).
    set (g := fun i => tab s (fun idx => f (i :: idx))).
    assert (Hrow : forall i, i < n -> g i = repeat c (prod s)).
    { intros i Hi. apply IH. intros idx Hidx. apply H. now constructor. }
    clearbody g. clear H IH.
    assert (Hgen : forall a k, a + k <= n ->
                     flat_map g (seq a k) = repeat c (k * prod s)).
    { intros a k. revert a. induction k as [|k IHk]; intros a Hk.
      - reflexivity.
      - cbn [seq flat_map]. rewrite Hrow by lia. rewrite IHk by lia.
        rewrite <- repeat_app. f_equal. }
    apply Hgen. lia.
Qed.


Lemma get_in (a : ndarray) (idx : list nat) :
  wf a -> in_bounds (shape a) idx -> In (get a idx) (data a).
Proof.
  intros Hwf Hb. unfold get. apply nth_In. rewrite Hwf. now apply ravel_lt.
Qed.

Lemma in_bounds_length (s idx : list nat) :
  in_bounds s idx -> length idx = length s.
Proof. unfold in_bounds. intros H. induction H; cbn; congruence. Qed.

Lemma wf_full (s : list nat) (x : scalar) : wf (full s x).
Proof. unfold wf, full. cbn. apply repeat_length. Qed.

Lemma get_full (s idx : list nat) (x : scalar) :
  in_bounds s idx -> get (full s x) idx = x.
Proof.
  intros Hb. pose proof (get_in (wf_full s x) Hb) as Hin.
  cbn in Hin. now apply repeat_spec in Hin.
Qed.
(** ** The constructor of [GaborFourier] *)

(** C4. Given an explicit filter bank, the constructor of [GaborFourier]
    raises [ValueError] when the shape of the bank is not the shape of the
    image, so that no object is built on which a method could be called;
    when the shapes agree it returns an object whose one attribute is the
    flattened filter bank. *)
Theorem GaborFourier_init_filter_bank {E : Externals}
  (image_shape : list nat) (fb : ndarray) (opts : gabor_options) :
  (shape fb <> image_shape ->
   GaborFourier.__init__ image_shape (GaborFourier.Build_kwargs (Some fb) opts)
   = Raise ValueError)
  /\ (shape fb = image_shape ->
      GaborFourier.__init__ image_shape (GaborFourier.Build_kwargs (Some fb) opts)
      = Ok (set_filter_bank (flatten fb) fresh)).
Proof.
  unfold GaborFourier.__init__. cbn [GaborFourier.kw_filter_bank].
  destruct (list_eq_dec Nat.eq_dec (shape fb) image_shape) as [Heq|Hne].
  - split; [intros H; contradiction | reflexivity].
  - split; [reflexivity | intros H; contradiction].
Qed.

Lemma GaborFourier_init_filter_bank_witness :
  GaborFourier.__init__ [8; 8] (with_filter_bank (full [4; 4] s1))
  = Raise ValueError
  /\ GaborFourier.__init__ [8; 8] (with_filter_bank (full [8; 8] s1))
     = Ok (set_filter_bank (flatten (full [8; 8] s1)) fresh).
Proof.
  split.
  - apply (proj1 (@GaborFourier_init_filter_bank model [8; 8] (full [4; 4] s1) tt)).
    discriminate.
  - apply (proj2 (@GaborFourier_init_filter_bank model [8; 8] (full [8; 8] s1) tt)).
    reflexivity.
Defined.

(** ** The [error] property *)

Lemma keeps_lift {A : Type} (r : result A) : keeps_error (lift r).
Proof. intros self. reflexivity. Qed.

Lemma keeps_ret {A : Type} (a : A) : keeps_error (ret a).
Proof. intros self. reflexivity. Qed.

Lemma keeps_getattr {A : Type} (field : residual -> option A) :
  keeps_error (getattr field).
Proof. intros self. unfold getattr. now destruct (field self). Qed.

Lemma keeps_setattr (upd : residual -> residual) :
  (forall self, _error_img (upd self) = _error_img self) ->
  keeps_error (setattr upd).
Proof. intros H self. apply H. Qed.

Lemma keeps_bind {A B : Type} (m : method A) (k : A -> method B) :
  keeps_error m -> (forall a, keeps_error (k a)) -> keeps_error (mbind m k).
Proof.
  intros Hm Hk self. unfold mbind. specialize (Hm self).
  destruct (m self) as [[a|e] self1]; simpl in *.
  - now rewrite Hk.
  - exact Hm.
Qed.

Ltac keeps :=
  repeat first
    [ apply keeps_lift
    | apply keeps_ret
    | apply keeps_getattr
    | apply keeps_setattr; intros; reflexivity
    | apply keeps_bind; [|intros]
    | match goal with
      | |- keeps_error (match ?x with _ => _ end) => destruct x
      end ].

Lemma images_keep_error {E : Externals} t img dW_dp forward :
  keeps_error (steepest_descent_images t img dW_dp forward).
Proof.
  destruct t; cbn [steepest_descent_images];
    unfold SSD.steepest_descent_images, GaborFourier.steepest_descent_images,
      ECC.steepest_descent_images, GradientImages.steepest_descent_images,
      GradientCorrelation.steepest_descent_images; keeps.
Qed.

Lemma hessian_keeps_error {E : Externals} t sdi sdi2 :
  keeps_error (calculate_hessian t sdi sdi2).
Proof.
  destruct t, sdi2; cbn [calculate_hessian];
    unfold SSD.calculate_hessian, GaborFourier.calculate_hessian,
      ECC.calculate_hessian, GradientImages.calculate_hessian,
      GradientCorrelation.calculate_hessian; keeps.
Qed.

Lemma error_of_cached {E : Externals} self err :
  _error_img self = Some err ->
  Residual.error self = (Ok (np_sqrt (np_mean (amap square err))), self).
Proof.
  intros H. unfold Residual.error, mbind, getattr. now rewrite H.
Qed.

Lemma error_of_missing {E : Externals} self :
  _error_img self = None -> Residual.error self = (Raise AttributeError, self).
Proof.
  intros H. unfold Residual.error, mbind, getattr. now rewrite H.
Qed.

Lemma update_caches_error {E : Externals} t sdi IWxp template self u self' :
  steepest_descent_update t sdi IWxp template self = (Ok u, self') ->
  exists err, _error_img self' = Some err.
Proof.
  destruct t; cbn [steepest_descent_update];
    unfold SSD.steepest_descent_update, GaborFourier.steepest_descent_update,
      ECC.steepest_descent_update, GradientImages.steepest_descent_update,
      GradientCorrelation.steepest_descent_update,
      GradientCorrelation.update_terms;
    intros H; minv H; eexists; reflexivity.
Qed.

(** C5. For each of the five classes: once [steepest_descent_update] has
    returned, the object holds an error vector [err] and [error] is
    [sqrt (mean (err ** 2))]; the same holds of any cached vector.  An object
    that was just built has no error vector, [steepest_descent_images] and
    [calculate_hessian] do not give it one, and reading [error] without one
    raises [AttributeError] instead of giving a value. *)
Theorem error_is_rms_of_cached_error {E : Externals} (t : residual_type) :
  (forall sdi IWxp template self u self',
      steepest_descent_update t sdi IWxp template self = (Ok u, self') ->
      exists err,
        _error_img self' = Some err
        /\ Residual.error self'
           = (Ok (np_sqrt (np_mean (amap square err))), self'))
  /\ (forall self err,
         _error_img self = Some err ->
         Residual.error self = (Ok (np_sqrt (np_mean (amap square err))), self))
  /\ (forall image_shape kw self,
         new t image_shape kw = Ok self ->
         Residual.error self = (Raise AttributeError, self))
  /\ (forall img dW_dp forward sdi sdi2 self,
         _error_img self = None ->
         let self1 := snd (steepest_descent_images t img dW_dp forward self) in
         let self2 := snd (calculate_hessian t sdi sdi2 self1) in
         Residual.error self1 = (Raise AttributeError, self1)
         /\ Residual.error self2 = (Raise AttributeError, self2)).
Proof.
  repeat split.
  - intros sdi IWxp template self u self' H.
    destruct (update_caches_error _ _ _ _ _ H) as [err Herr].
    exists err. split; [exact Herr | now apply error_of_cached].
  - intros self err. apply error_of_cached.
  - intros image_shape kw self H. apply error_of_missing.
    destruct t; cbn [new] in H; try (injection H as <-; reflexivity).
    unfold GaborFourier.__init__ in H.
    destruct (GaborFourier.kw_filter_bank kw) as [fb|]; cbn [bind] in H.
    + destruct (list_eq_dec Nat.eq_dec (shape fb) image_shape);
        cbn [bind] in H; [injection H as <-; reflexivity | discriminate].
    + injection H as <-. reflexivity.
  - apply error_of_missing. now rewrite images_keep_error.
  - apply error_of_missing. now rewrite hessian_keeps_error, images_keep_error.
Qed.

Lemma error_is_rms_witness :
  let self' := snd (steepest_descent_update (E:=model) T_SSD sdi_2x1
                      image_3_5 image_1_1 fresh) in
  (exists err,
      _error_img self' = Some err
      /\ Residual.error (E:=model) self'
         = (Ok (@np_sqrt model (np_mean (amap square err))), self'))
  /\ Residual.error (E:=model) fresh = (Raise AttributeError, fresh).
Proof.
  intros self'. subst self'. split.
  - assert (Hrun : exists u,
               steepest_descent_update (E:=model) T_SSD sdi_2x1 image_3_5
                 image_1_1 fresh
               = (Ok u, snd (steepest_descent_update (E:=model) T_SSD sdi_2x1
                               image_3_5 image_1_1 fresh))).
    { vm_compute. eexists. reflexivity. }
    destruct Hrun as [u Hu].
    exact (proj1 (@error_is_rms_of_cached_error model T_SSD) _ _ _ _ _ _ Hu).
  - apply (proj1 (proj2 (proj2 (@error_is_rms_of_cached_error model T_SSD)))
             [1; 2] no_kwargs).
    reflexivity.
Defined.

(** ** [SSD.steepest_descent_update] *)

Lemma broadcast_same_1 (n : nat) : broadcast_shapes [n] [n] = Ok [n].
Proof.
  unfold broadcast_shapes, pad. cbn. unfold bc_dim. now rewrite Nat.eqb_refl.
Qed.

(** C10. [SSD.steepest_descent_update] reads no attribute of [self].  What
    it returns or raises is [sdi.T.dot(IWxp.as_vector() -
    template.as_vector())], the same on any two objects.  The object it
    leaves is the one it found with the difference of the two vectors as
    its cached error vector, whatever vector was cached before and even
    when the product then raises; when the subtraction itself raises, the
    object is as it was.  And on any object, also one that was just built,
    it returns as soon as the two vectors have the length [n] of the columns
    of [sdi]. *)
Theorem SSD_update_reads_no_state
  (sdi : ndarray) (IWxp template : image) :
  (forall self,
      fst (SSD.steepest_descent_update sdi IWxp template self)
      = (do e <- zip_with ssub (as_vector IWxp) (as_vector template);
         dot (transpose sdi) e))
  /\ (forall self1 self2,
         fst (SSD.steepest_descent_update sdi IWxp template self1)
         = fst (SSD.steepest_descent_update sdi IWxp template self2)
         /\ (is_ok (zip_with ssub (as_vector IWxp) (as_vector template)) = true ->
             _error_img (snd (SSD.steepest_descent_update sdi IWxp template
                                self1))
             = _error_img (snd (SSD.steepest_descent_update sdi IWxp template
                                  self2))))
  /\ (forall self,
         snd (SSD.steepest_descent_update sdi IWxp template self)
         = match zip_with ssub (as_vector IWxp) (as_vector template) with
           | Ok e => set_error_img e self
           | Raise _ => self
           end
         /\ _error_img (snd (SSD.steepest_descent_update sdi IWxp template
                               self))
            = match zip_with ssub (as_vector IWxp) (as_vector template) with
              | Ok e => Some e
              | Raise _ => _error_img self
              end)
  /\ (forall n k self,
         shape sdi = [n; k] ->
         size (as_vector IWxp) = n ->
         size (as_vector template) = n ->
         exists u e,
           zip_with ssub (as_vector IWxp) (as_vector template) = Ok e
           /\ SSD.steepest_descent_update sdi IWxp template self
              = (Ok u, set_error_img e self)
           /\ shape u = [k]).
Proof.
  unfold SSD.steepest_descent_update, mbind, lift, setattr.
  split; [|split; [|split]].
  - intros self.
    destruct (zip_with ssub (as_vector IWxp) (as_vector template)) as [e|x];
      [|reflexivity].
    cbn [bind]. now destruct (dot (transpose sdi) e).
  - intros self1 self2.
    destruct (zip_with ssub (as_vector IWxp) (as_vector template)) as [e|x];
      [|split; [reflexivity | discriminate]].
    destruct (dot (transpose sdi) e); split; reflexivity.
  - intros self.
    destruct (zip_with ssub (as_vector IWxp) (as_vector template)) as [e|x];
      [|split; reflexivity].
    destruct (dot (transpose sdi) e); split; reflexivity.
  - intros n k self Hs Hi Ht. unfold zip_with.
    change (shape (as_vector IWxp)) with [size (as_vector IWxp)].
    change (shape (as_vector template)) with [size (as_vector template)].
    rewrite Hi, Ht, broadcast_same_1. cbn [bind].
    unfold dot. cbn [shape transpose]. rewrite rev_involutive, Hs.
    cbn [rev app]. rewrite Nat.eqb_refl.
    eexists. eexists. split; [reflexivity|]. split; reflexivity.
Qed.

Lemma SSD_update_reads_no_state_witness :
  exists u e,
    zip_with ssub (as_vector image_3_5) (as_vector image_1_1) = Ok e
    /\ SSD.steepest_descent_update sdi_2x1 image_3_5 image_1_1 stale
       = (Ok u, set_error_img e stale)
    /\ shape u = [1].
Proof.
  apply (proj2 (proj2 (proj2 (SSD_update_reads_no_state sdi_2x1 image_3_5
                                image_1_1))) 2 1 stale); reflexivity.
Defined.

Lemma bind_ok {A B : Type} (r : result A) (k : A -> result B) (b : B) :
  bind r k = Ok b -> exists a, r = Ok a /\ k a = Ok b.
Proof. destruct r as [a|e]; cbn; intros H; [now exists a | discriminate]. Qed.

(** Inversion of a computation that returned. *)
Ltac binv H :=
  repeat
    (match type of H with
     | bind _ _ = Ok _ =>
         let a := fresh "x" in
         let H1 := fresh "Hb" in
         apply bind_ok in H; destruct H as (a & H1 & H)
     end).

Lemma get_transpose (a : ndarray) (idx : list nat) :
  in_bounds (rev (shape a)) idx -> get (transpose a) idx = get a (rev idx).
Proof.
  intros Hb. unfold get at 1, transpose. cbn [shape data].
  now rewrite nth_tab.
Qed.

Lemma in_bounds_2 (n k i j : nat) : i < n -> j < k -> in_bounds [n; k] [i; j].
Proof. intros Hi Hj. repeat constructor; assumption. Qed.

Lemma in_bounds_2_inv (n k : nat) (idx : list nat) :
  in_bounds [n; k] idx -> exists i j, idx = [i; j] /\ i < n /\ j < k.
Proof.
  intros H. inversion H as [|i n' idx' s' Hi H' ]; subst.
  inversion H' as [|j k' idx'' s'' Hj H'']; subst.
  inversion H''; subst. now exists i, j.
Qed.

Lemma dot_transpose (n k m : nat) (a b : ndarray) :
  shape a = [n; k] -> shape b = [n; m] ->
  dot (transpose a) b = Ok (cross n k m a b).
Proof.
  intros Ha Hb. unfold dot, cross. cbn [shape transpose].
  rewrite rev_involutive, Ha, Hb. cbn [rev app length]. rewrite Nat.eqb_refl.
  f_equal. f_equal. apply tab_ext. intros idx Hidx.
  apply in_bounds_2_inv in Hidx. destruct Hidx as (i & j & -> & Hi & Hj).
  cbn [firstn skipn app nth Nat.add]. f_equal. apply map_ext_in.
  intros l Hl. apply in_seq in Hl. f_equal.
  rewrite get_transpose; [reflexivity|].
  rewrite Ha. cbn [rev app]. apply in_bounds_2; lia.
Qed.


(** ** [calculate_hessian] *)















(** ** Shapes *)

Lemma bc_dim_refl (n : nat) : bc_dim n n = Ok n.
Proof. unfold bc_dim. now rewrite Nat.eqb_refl. Qed.

Lemma bc_dim_1_l (n : nat) : bc_dim 1 n = Ok n.
Proof.
  unfold bc_dim. destruct (1 =? n) eqn:H; [|reflexivity].
  apply Nat.eqb_eq in H. now subst.
Qed.

Lemma bc_dim_1_r (n : nat) : bc_dim n 1 = Ok n.
Proof.
  unfold bc_dim. destruct (n =? 1) eqn:H.
  - apply Nat.eqb_eq in H. now subst.
  - reflexivity.
Qed.

Lemma bc_shape_refl (s : list nat) : bc_shape s s = Ok s.
Proof.
  induction s as [|n s IH]; cbn [bc_shape]; [reflexivity|].
  now rewrite bc_dim_refl, IH.
Qed.

Lemma broadcast_shapes_refl (s : list nat) : broadcast_shapes s s = Ok s.
Proof.
  unfold broadcast_shapes, pad. rewrite Nat.max_id, Nat.sub_diag.
  apply bc_shape_refl.
Qed.

Lemma prod_app (s t : list nat) : prod (s ++ t) = prod s * prod t.
Proof.
  induction s as [|n s IH]; cbn [app prod fold_right].
  - fold (prod t). lia.
  - fold (prod (s ++ t)). fold (prod s). rewrite IH. lia.
Qed.

Lemma unknowns_Some (dims : list nat) : unknowns (map Some dims) = 0.
Proof.
  unfold unknowns. induction dims as [|d dims IH]; [reflexivity | exact IH].
Qed.

Lemma known_Some (dims : list nat) : known (map Some dims) = prod dims.
Proof. unfold known. now rewrite map_map, map_id. Qed.

Lemma shape_Some (dims : list nat) (n : nat) :
  map (fun d : option nat => match d with Some m => m | None => n end)
      (map Some dims) = dims.
Proof. now rewrite map_map, map_id. Qed.


Lemma reshape_infer_first (a : ndarray) (n : nat) (rest : list nat) :
  size a = n * prod rest -> prod rest <> 0 ->
  reshape a (None :: map Some rest)
  = Ok {| shape := n :: rest; data := data a |}.
Proof.
  intros H Hp. unfold reshape.
  assert (Hu : unknowns (None :: map Some rest) = 1).
  { pose proof (unknowns_Some rest) as Hu. unfold unknowns in *.
    cbn [filter length]. now rewrite Hu. }
  assert (Hk : known (None :: map Some rest) = prod rest).
  { pose proof (known_Some rest) as Hk. unfold known in *.
    cbn [map prod fold_right]. fold (prod (map (fun d : option nat =>
      match d with Some n0 => n0 | None => 1 end) (map Some rest))).
    rewrite Hk. lia. }
  rewrite Hu, Hk, H. rewrite Nat.Div0.mod_mul, Nat.div_mul by exact Hp.
  apply Nat.eqb_neq in Hp. rewrite Hp. cbn [orb negb Nat.eqb map].
  now rewrite shape_Some.
Qed.

Lemma reshape_infer_last (a : ndarray) (pre : list nat) (p : nat) :
  size a = prod pre * p -> prod pre <> 0 ->
  reshape a (map Some pre ++ [None])
  = Ok {| shape := pre ++ [p]; data := data a |}.
Proof.
  intros H Hp. unfold reshape.
  assert (Hu : unknowns (map Some pre ++ [None]) = 1).
  { pose proof (unknowns_Some pre) as Hu. unfold unknowns in *.
    rewrite filter_app, length_app, Hu. reflexivity. }
  assert (Hk : known (map Some pre ++ [None]) = prod pre).
  { pose proof (known_Some pre) as Hk. unfold known in *.
    rewrite map_app, prod_app, Hk. cbn. lia. }
  rewrite Hu, Hk, H.
  replace (prod pre * p) with (p * prod pre) by lia.
  rewrite Nat.Div0.mod_mul, Nat.div_mul by exact Hp.
  apply Nat.eqb_neq in Hp. rewrite Hp. cbn [orb negb Nat.eqb].
  rewrite map_app, shape_Some. reflexivity.
Qed.

Lemma size_zip (op : scalar -> scalar -> scalar) (a b c : ndarray) :
  zip_with op a b = Ok c -> wf c.
Proof.
  unfold zip_with. intros H. binv H. injection H as <-.
  unfold wf. cbn [data shape]. apply length_tab.
Qed.

Lemma shape_zip (op : scalar -> scalar -> scalar) (a b : ndarray) (s : list nat) :
  broadcast_shapes (shape a) (shape b) = Ok s ->
  exists c, zip_with op a b = Ok c /\ shape c = s /\ wf c.
Proof.
  intros H. unfold zip_with. rewrite H. cbn [bind]. eexists.
  split; [reflexivity|]. split; [reflexivity|].
  unfold wf. cbn [data shape]. apply length_tab.
Qed.

Lemma in_range_lt (n i : nat) (s : list nat) :
  i < n -> in_range (n :: s) [i] = true.
Proof.
  intros H. cbn [in_range]. apply Nat.ltb_lt in H. now rewrite H.
Qed.

Lemma shape_sub_array_1 (a : ndarray) (n i : nat) (s : list nat) :
  shape a = n :: s -> wf a -> i < n ->
  exists c, sub_array a [i] = Ok c /\ shape c = s /\ wf c.
Proof.
  intros Hs Hwf Hi. unfold sub_array. rewrite Hs, in_range_lt by exact Hi.
  eexists. split; [reflexivity|]. split; [reflexivity|].
  unfold wf in *. cbn [length skipn shape data ravel].
  rewrite length_firstn, length_skipn, Hwf, Hs. cbn [prod fold_right].
  fold (prod s). nia.
Qed.




Lemma add_rows_shape (a : ndarray) (n : nat) (s : list nat) :
  shape a = n :: s -> wf a -> 0 < n ->
  exists c, add_rows a = Ok (Some c) /\ shape c = s /\ wf c.
Proof.
  intros Hs Hwf Hn. unfold add_rows. rewrite Hs.
  assert (Hgen : forall k start acc,
             start + k <= n ->
             shape acc = s -> wf acc ->
             exists c,
               fold_left
                 (fun acc i =>
                    do sdi <- acc;
                    do d <- sub_array a [i];
                    match sdi with
                    | None => Ok (Some (amap (sadd s0) d))
                    | Some x => do y <- zip_with sadd x d; Ok (Some y)
                    end)
                 (seq start k) (Ok (Some acc)) = Ok (Some c)
               /\ shape c = s /\ wf c).
  { induction k as [|k IH]; intros start acc Hk Hsa Hwa.
    - exists acc. now split.
    - cbn [seq fold_left bind].
      destruct (@shape_sub_array_1 a n start s Hs Hwf) as (d & Hd & Hsd & Hwd);
        [lia|].
      rewrite Hd. cbn [bind].
      destruct (@shape_zip sadd acc d s) as (y & Hy & Hsy & Hwy).
      { rewrite Hsa, Hsd. apply broadcast_shapes_refl. }
      rewrite Hy. cbn [bind]. apply IH; [lia | assumption | assumption]. }
  destruct n as [|n]; [lia|]. cbn [seq fold_left bind].
  destruct (@shape_sub_array_1 a (S n) 0 s Hs Hwf) as (d & Hd & Hsd & Hwd);
    [lia|].
  rewrite Hd. cbn [bind]. apply Hgen; [lia | exact Hsd |].
  unfold wf in *. cbn [amap data shape]. now rewrite length_map.
Qed.

Lemma reshape_sdi_shape (j : nat) (sdi : ndarray) (n k : nat) :
  j < ndim sdi -> nth j (shape sdi) 0 = k -> size sdi = n * k -> k <> 0 ->
  reshape_sdi j (Some sdi) = Ok {| shape := [n; k]; data := data sdi |}.
Proof.
  intros Hj Hk Hsz Hne. unfold reshape_sdi. apply Nat.ltb_lt in Hj.
  rewrite Hj, Hk.
  apply (@reshape_infer_first sdi n [k]); cbn [prod fold_right]; lia.
Qed.

(** ** The shape of the steepest descent images *)

Ltac bc_dims :=
  repeat (first [rewrite bc_dim_refl | rewrite bc_dim_1_l | rewrite bc_dim_1_r];
          cbn [bind]).

Ltac bc :=
  unfold broadcast_shapes, pad;
  cbn [length Nat.max Nat.sub repeat app bc_shape shape];
  bc_dims; reflexivity.

(** The contraction of the gradient with the Jacobian that [SSD] and [ECC]
    share. *)
Lemma contraction_shape (v dW_dp : ndarray) (D C P K : nat) :
  size v = D * C * P -> shape dW_dp = [D; P; K] ->
  0 < D -> 0 < C -> 0 < K ->
  exists sdi,
    (do grad <- reshape v [Some D; Some C; None];
     do g <- new_axis (ndim grad) 0 grad;
     do w <- new_axis 1 1 dW_dp;
     do a <- zip_with smul g w;
     do sdi <- add_rows a;
     reshape_sdi 2 sdi) = Ok sdi
    /\ shape sdi = [C * P; K] /\ wf sdi.
Proof.
  intros Hv HdW HD HC HK.
  pose proof (@reshape_infer_last v [D; C] P) as Hr.
  cbn [map app] in Hr. rewrite Hr by (cbn [prod fold_right]; nia). clear Hr.
  cbn [bind app]. unfold new_axis at 1, ndim. cbn [shape length Nat.leb andb
    firstn skipn app bind data].
  unfold new_axis, ndim. rewrite HdW.
  cbn [shape length Nat.leb andb firstn skipn app bind data].
  destruct (@shape_zip smul {| shape := [D; C; P; 1]; data := data v |}
              {| shape := [D; 1; P; K]; data := data dW_dp |} [D; C; P; K])
    as (a & Ha & Hsa & Hwa); [bc|].
  rewrite Ha. cbn [bind].
  destruct (@add_rows_shape a D [C; P; K] Hsa Hwa HD) as (c & Hc & Hsc & Hwc).
  rewrite Hc. cbn [bind].
  rewrite (@reshape_sdi_shape 2 c (C * P) K).
  - eexists. split; [reflexivity|]. split; [reflexivity|].
    unfold wf in *. cbn [shape data prod fold_right]. rewrite Hwc, Hsc.
    cbn [prod fold_right]. lia.
  - unfold ndim. rewrite Hsc. cbn. lia.
  - now rewrite Hsc.
  - unfold size. rewrite Hwc, Hsc. cbn [prod fold_right]. lia.
  - lia.
Qed.

Lemma SSD_images_shape {E : Externals} img dW_dp forward grad self
  (P K : nat) :
  Residual._calculate_gradients img forward = Ok grad ->
  size (as_vector grad) = n_dims img * n_channels img * P ->
  shape dW_dp = [n_dims img; P; K] ->
  0 < n_dims img -> 0 < n_channels img -> 0 < K ->
  exists sdi,
    SSD.steepest_descent_images img dW_dp forward self = (Ok sdi, self)
    /\ shape sdi = [n_channels img * P; K] /\ wf sdi.
Proof.
  intros Hg Hv HdW HD HC HK. unfold SSD.steepest_descent_images, lift.
  rewrite Hg. cbn [bind].
  destruct (contraction_shape _ _ Hv HdW HD HC HK) as (sdi & -> & Hs & Hw).
  now exists sdi.
Qed.


Lemma broadcast_shapes_cons (n : nat) (s : list nat) :
  broadcast_shapes (n :: s) s = Ok (n :: s).
Proof.
  unfold broadcast_shapes, pad. cbn [length].
  rewrite Nat.max_l by lia. rewrite Nat.sub_diag.
  replace (S (length s) - length s) with 1 by lia.
  cbn [repeat app bc_shape]. now rewrite bc_dim_1_r, bc_shape_refl.
Qed.

Lemma regularise_shape {E : Externals} (grad : image) (n : nat) (s : list nat) :
  shape (pixels grad) = n :: s ->
  exists q,
    GradientImages._regularise_gradients grad
    = Ok {| pixels := q; mask := mask grad |}
    /\ shape q = n :: s /\ wf q.
Proof.
  intros Hs. unfold GradientImages._regularise_gradients, sum_axis, ndim.
  cbn [amap shape]. rewrite Hs. cbn [length Nat.ltb Nat.leb bind firstn skipn app].
  match goal with
  | |- context [zip_with sdiv (pixels grad) ?ab] =>
      destruct (@shape_zip sdiv (pixels grad) ab (n :: s))
        as (q & Hq & Hsq & Hwq)
  end.
  { cbn [shape amap]. rewrite Hs. apply broadcast_shapes_cons. }
  rewrite Hq. cbn [bind]. now exists q.
Qed.














(** ** The step size of [GradientCorrelation] *)

Lemma of_nat_S (n : nat) :
  Num.of_nat (S n) = Num.add (Num.of_nat n) Num.one.
Proof.
  unfold Num.of_nat, Num.of_Z, Num.one, Num.add. f_equal.
  apply Qc_is_canon. unfold Qcplus, Q2Qc. cbn [this].
  rewrite !Qred_correct. rewrite Nat2Z.inj_succ. unfold Z.succ.
  rewrite inject_Z_plus. reflexivity.
Qed.

Lemma of_nat_mul (c n : nat) :
  Q2Qc (inject_Z (Z.of_nat (c * n)))
  = (Q2Qc (inject_Z (Z.of_nat c)) * Q2Qc (inject_Z (Z.of_nat n)))%Qc.
Proof.
  apply Qc_is_canon. unfold Qcmult, Q2Qc. cbn [this].
  rewrite !Qred_correct. rewrite Nat2Z.inj_mul, inject_Z_mult. reflexivity.
Qed.

Lemma of_nat_nonzero (n : nat) :
  0 < n -> Q2Qc (inject_Z (Z.of_nat n)) <> 0%Qc.
Proof.
  intros Hn H. apply (f_equal this) in H. unfold Q2Qc in H. cbn [this] in H.
  assert (Hq : Qred (inject_Z (Z.of_nat n)) == 0) by (rewrite H; reflexivity).
  rewrite Qred_correct in Hq. unfold Qeq, inject_Z in Hq. cbn in Hq. lia.
Qed.

Lemma sign_of_nat (n : nat) :
  0 < n -> Num.sign (Q2Qc (inject_Z (Z.of_nat n))) = Gt.
Proof.
  intros Hn. destruct n as [|n]; [lia|]. cbn [Z.of_nat].
  apply NumFacts.sign_of_pos.
Qed.

(** [N / (C * N)] is [1 / C]. *)
Lemma step_of_aligned (c n : nat) :
  0 < c -> 0 < n ->
  Num.div (Num.of_nat n) (Num.of_nat (c * n))
  = Num.div Num.one (Num.of_nat c).
Proof.
  intros Hc Hn. unfold Num.div, Num.of_nat, Num.of_Z, Num.one.
  rewrite !sign_of_nat by nia. f_equal. rewrite of_nat_mul.
  pose proof (of_nat_nonzero Hc). pose proof (of_nat_nonzero Hn).
  field. now split.
Qed.

Lemma sum_ones (n k : nat) :
  fold_left sadd (repeat s1 n) (Re (Num.of_nat k)) = Re (Num.of_nat (k + n)).
Proof.
  revert k. induction n as [|n IH]; intros k; cbn [repeat fold_left].
  - now rewrite Nat.add_0_r.
  - cbn [sadd s1]. rewrite <- of_nat_S, IH. f_equal. f_equal. lia.
Qed.

Lemma clamp_id (s idx : list nat) : in_bounds s idx -> clamp s idx = idx.
Proof.
  unfold in_bounds. intros H. induction H as [|i n idx s Hi _ IH].
  - reflexivity.
  - cbn [clamp]. rewrite IH. destruct (n =? 1) eqn:Hn; [|reflexivity].
    apply Nat.eqb_eq in Hn. f_equal. lia.
Qed.

Lemma bc_index_same (s idx : list nat) :
  in_bounds s idx -> bc_index s idx = idx.
Proof.
  intros H. unfold bc_index. rewrite (in_bounds_length H), Nat.sub_diag.
  cbn [skipn]. now apply clamp_id.
Qed.

Lemma zip_same (op : scalar -> scalar -> scalar) (a b : ndarray) (s : list nat) :
  shape a = s -> shape b = s ->
  zip_with op a b
  = Ok {| shape := s;
          data := tab s (fun idx => op (get a idx) (get b idx)) |}.
Proof.
  intros Ha Hb. unfold zip_with. rewrite Ha, Hb, broadcast_shapes_refl.
  cbn [bind]. f_equal. f_equal. apply tab_ext. intros idx Hidx.
  now rewrite bc_index_same.
Qed.

Lemma get_amap (f : scalar -> scalar) (a : ndarray) (idx : list nat) :
  wf a -> in_bounds (shape a) idx -> get (amap f a) idx = f (get a idx).
Proof.
  intros Hwf Hb. unfold get. cbn [amap shape data].
  rewrite (nth_indep _ _ (f (Re Num.NaN))).
  - apply map_nth.
  - rewrite length_map, Hwf. now apply ravel_lt.
Qed.

Lemma get_tab (s idx : list nat) (f : list nat -> scalar) :
  in_bounds s idx -> get {| shape := s; data := tab s f |} idx = f idx.
Proof. intros H. unfold get. cbn [shape data]. now apply nth_tab. Qed.

Lemma prod_2 (c n : nat) : prod [c; n] = c * n.
Proof. cbn [prod fold_right]. lia. Qed.

Lemma prod_1 (n : nat) : prod [n] = n.
Proof. cbn [prod fold_right]. lia. Qed.

Lemma div_one_one : Num.div Num.one (Num.of_nat 1) = Num.one.
Proof.
  unfold Num.div, Num.one, Num.of_nat, Num.of_Z.
  rewrite (@sign_of_nat 1) by lia. f_equal; try (now apply Qc_is_canon).
Qed.

(** C8 (amended). [GradientCorrelation.steepest_descent_update] returns
    [l * sdi.T.dot(error)] with [l = N / qp], where [N] is the cached
    [h * w] and [qp] the sum over all the channels and pixels of
    [cos_t * cos_w + sin_t * sin_w].  When the angles of the warped image
    are those of the template at each of the [N] pixels of each of the [C]
    channels, and the squares of their cosine and sine add up to one, the
    error vector is all zeros, [qp] is [C * N] and [l] is [1 / C]: one on an
    image of one channel. *)
Theorem gradient_correlation_step {E : Externals}
  (sdi : ndarray) (IWxp template : image) (self : residual) :
  (forall sdu qp l self',
      GradientCorrelation.update_terms sdi IWxp self
      = (Ok (sdu, qp, l), self') ->
      GradientCorrelation.steepest_descent_update sdi IWxp template self
      = (Ok (amap (smul l) sdu), self')
      /\ exists N phi cos_phi sin_phi a b e a' b' s,
          _N self = Some N
          /\ _cos_phi self = Some cos_phi
          /\ _sin_phi self = Some sin_phi
          /\ GradientCorrelation.warped_orientation IWxp = Ok phi
          /\ zip_with smul cos_phi (amap np_sin phi) = Ok a
          /\ zip_with smul sin_phi (amap np_cos phi) = Ok b
          /\ zip_with ssub a b = Ok e
          /\ _error_img self' = Some (flatten e)
          /\ dot (transpose sdi) (flatten e) = Ok sdu
          /\ zip_with smul cos_phi (amap np_cos phi) = Ok a'
          /\ zip_with smul sin_phi (amap np_sin phi) = Ok b'
          /\ zip_with sadd a' b' = Ok s
          /\ qp = np_sum s
          /\ l = sdiv (Re (Num.of_nat N)) qp)
  /\ (forall C N K phi,
         GradientCorrelation.warped_orientation IWxp = Ok phi ->
         shape phi = [C; N] -> wf phi ->
         _cos_phi self = Some (amap np_cos phi) ->
         _sin_phi self = Some (amap np_sin phi) ->
         _N self = Some N ->
         shape sdi = [C * N; K] ->
         0 < C -> 0 < N ->
         Forall (fun x => exists c s,
                     np_cos x = Re (Num.Fin c)
                     /\ np_sin x = Re (Num.Fin s)
                     /\ (c * c + s * s = 1)%Qc) (data phi) ->
         exists sdu l,
           GradientCorrelation.update_terms sdi IWxp self
           = (Ok (sdu, Re (Num.of_nat (C * N)), l),
              set_error_img (zeros [C * N]) self)
           /\ l = Re (Num.div Num.one (Num.of_nat C))
           /\ (C = 1 -> l = s1)).
Proof.
  split.
  - intros sdu qp l self' H. split.
    + unfold GradientCorrelation.steepest_descent_update, mbind. now rewrite H.
    + unfold GradientCorrelation.update_terms in H. minv H.
      repeat match goal with
             | H : bind _ _ = Ok _ |- _ => binv H
             end.
      cbn [_cos_phi _sin_phi _N _error_img set_error_img] in *.
      injection Hg1 as <-.
      rewrite Hg in Hg2. injection Hg2 as <-.
      rewrite Hg0 in Hg3. injection Hg3 as <-.
      injection Hv as -> -> ->.
      exists a11, a, a0, a2, a1, x0, a3, a8, x, a10.
      repeat split; assumption || reflexivity.
  - intros C N K phi Hphi Hs Hwf Hcos Hsin HN Hsdi HC HPN Hall.
    assert (Hget : forall idx, in_bounds [C; N] idx ->
               exists c s,
                 get (amap np_cos phi) idx = Re (Num.Fin c)
                 /\ get (amap np_sin phi) idx = Re (Num.Fin s)
                 /\ (c * c + s * s = 1)%Qc).
    { intros idx Hidx. rewrite <- Hs in Hidx.
      rewrite !get_amap by assumption.
      rewrite Forall_forall in Hall. apply Hall. now apply get_in. }
    pose proof (@zip_same smul (amap np_cos phi) (amap np_sin phi) [C; N]
                  Hs Hs) as HA1.
    pose proof (@zip_same smul (amap np_sin phi) (amap np_cos phi) [C; N]
                  Hs Hs) as HB1.
    pose proof (@zip_same smul (amap np_cos phi) (amap np_cos phi) [C; N]
                  Hs Hs) as HA2.
    pose proof (@zip_same smul (amap np_sin phi) (amap np_sin phi) [C; N]
                  Hs Hs) as HB2.
    set (A1 := {| shape := [C; N];
                  data := tab [C; N] (fun idx =>
                    smul (get (amap np_cos phi) idx)
                         (get (amap np_sin phi) idx)) |}) in *.
    set (A2 := {| shape := [C; N];
                  data := tab [C; N] (fun idx =>
                    smul (get (amap np_cos phi) idx)
                         (get (amap np_cos phi) idx)) |}) in *.
    assert (HZ : (do b <- zip_with smul (amap np_sin phi) (amap np_cos phi);
                  zip_with ssub A1 b)
                 = Ok {| shape := [C; N]; data := repeat s0 (C * N) |}).
    { rewrite HB1. cbn [bind].
      rewrite (@zip_same ssub _ _ [C; N]) by reflexivity.
      f_equal. f_equal. rewrite <- prod_2. apply tab_const.
      intros idx Hidx. unfold A1. rewrite !get_tab by assumption.
      destruct (Hget idx Hidx) as (c & s & -> & -> & _).
      cbn [smul ssub]. unfold Num.sub, Num.mul, Num.neg, Num.add, s0, Num.zero.
      f_equal. f_equal. ring. }
    assert (HS : (do b <- zip_with smul (amap np_sin phi) (amap np_sin phi);
                  zip_with sadd A2 b)
                 = Ok {| shape := [C; N]; data := repeat s1 (C * N) |}).
    { rewrite HB2. cbn [bind].
      rewrite (@zip_same sadd _ _ [C; N]) by reflexivity.
      f_equal. f_equal. rewrite <- prod_2. apply tab_const.
      intros idx Hidx. unfold A2. rewrite !get_tab by assumption.
      destruct (Hget idx Hidx) as (c & s & -> & -> & Hone).
      cbn [smul sadd]. unfold Num.mul, Num.add, s1, Num.one.
      f_equal. f_equal. exact Hone. }
    assert (Hflat : flatten {| shape := [C; N]; data := repeat s0 (C * N) |}
                    = zeros [C * N]).
    { unfold flatten, zeros, full, size. cbn [data].
      now rewrite repeat_length, prod_1. }
    assert (Hdot : exists sdu, dot (transpose sdi) (zeros [C * N]) = Ok sdu).
    { unfold dot. cbn [shape transpose zeros full]. rewrite rev_involutive, Hsdi.
      cbn [rev app]. rewrite Nat.eqb_refl. eexists. reflexivity. }
    destruct Hdot as [sdu Hdot].
    assert (Hqp : np_sum {| shape := [C; N]; data := repeat s1 (C * N) |}
                  = Re (Num.of_nat (C * N))).
    { unfold np_sum, sum_list. cbn [data].
      change s0 with (Re (Num.of_nat 0)). now rewrite sum_ones. }
    exists sdu, (Re (Num.div Num.one (Num.of_nat C))).
    split; [|split; [reflexivity | intros ->; cbn [s1]; now rewrite div_one_one]].
    unfold GradientCorrelation.update_terms.
    erewrite mbind_step by (unfold lift; rewrite Hphi; reflexivity).
    erewrite mbind_step by (unfold getattr; rewrite Hcos; reflexivity).
    erewrite mbind_step by (unfold lift; rewrite HA1; reflexivity).
    erewrite mbind_step by (unfold getattr; rewrite Hsin; reflexivity).
    erewrite mbind_step by (unfold lift; rewrite HZ; reflexivity).
    erewrite mbind_step by reflexivity.
    erewrite mbind_step by reflexivity.
    rewrite Hflat.
    erewrite mbind_step by (unfold lift; rewrite Hdot; reflexivity).
    erewrite mbind_step
      by (unfold getattr; cbn [_cos_phi set_error_img]; rewrite Hcos; reflexivity).
    erewrite mbind_step by (unfold lift; rewrite HA2; reflexivity).
    erewrite mbind_step
      by (unfold getattr; cbn [_sin_phi set_error_img]; rewrite Hsin; reflexivity).
    erewrite mbind_step by (unfold lift; rewrite HS; reflexivity).
    erewrite mbind_step
      by (unfold getattr; cbn [_N set_error_img]; rewrite HN; reflexivity).
    unfold ret. rewrite Hqp. cbn [sdiv]. now rewrite step_of_aligned.
Qed.

Lemma gradient_correlation_step_witness :
  exists sdu,
    GradientCorrelation.steepest_descent_update (E:=model) ramp_sdi ramp_3x3
      ramp_3x3 ramp_state
    = (Ok (amap (smul s1) sdu), set_error_img (zeros [1 * 9]) ramp_state).
Proof.
  destruct (@gradient_correlation_step model ramp_sdi ramp_3x3 ramp_3x3
              ramp_state) as [Hformula Haligned].
  destruct (Haligned 1 9 1 ramp_phi) as (sdu & l & Hrun & _ & Hone).
  - vm_compute. reflexivity.
  - reflexivity.
  - reflexivity.
  - vm_compute. reflexivity.
  - vm_compute. reflexivity.
  - reflexivity.
  - reflexivity.
  - lia.
  - lia.
  - apply Forall_forall. intros x Hx.
    assert (Hzero : forallb (fun y => seqb y s0) (data ramp_phi) = true)
      by (vm_compute; reflexivity).
    rewrite forallb_forall in Hzero. apply Hzero, seqb_eq in Hx. subst x.
    exists (Model.qcos 0%Qc), (Model.qsin 0%Qc).
    split; [reflexivity | split; [reflexivity|]].
    apply Qc_is_canon. vm_compute. reflexivity.
  - rewrite (Hone eq_refl) in Hrun. exists sdu.
    exact (proj1 (Hformula _ _ _ _ Hrun)).
Defined.

(** C8 as it is stated fails on an image of three channels: the angles of
    the warped image are those of the template and the error vector is all
    zeros, and yet [qp] is 27, three times the pixel count [N = 9], and the
    step size is not one. *)
Lemma gradient_correlation_step_counterexample :
  match ramps_run with
  | (Ok (sdu, qp, l), self') =>
      same_angles self' ramps_3x3 = true
      /\ option_map all_zero (_error_img self') = Some true
      /\ _N self' = Some 9
      /\ seqb qp (real 27) = true
      /\ seqb qp (real 9) = false
      /\ seqb l s1 = false
  | (Raise _, _) => False
  end.
Proof. vm_compute. repeat split. Qed.

(** ** The weighting of [GaborFourier] *)

Lemma tab_merge {A : Type} (C P K : nat) (f : list nat -> A) :
  tab [C; P; K] f
  = tab [C * P; K] (fun idx =>
      f [nth 0 idx 0 / P; nth 0 idx 0 mod P; nth 1 idx 0]).
Proof.
  apply (nth_ext _ _ (f []) (f [])).
  - rewrite !length_tab. cbn [prod fold_right]. lia.
  - intros n Hn. rewrite length_tab in Hn. cbn [prod fold_right] in Hn.
    assert (HK : 0 < K) by nia. assert (HP : 0 < P) by nia.
    set (r := n / K). set (k := n mod K).
    assert (Hnk : n = r * K + k).
    { unfold r, k. pose proof (Nat.div_mod_eq n K). lia. }
    assert (Hk : k < K) by (apply Nat.mod_upper_bound; lia).
    assert (Hr : r < C * P).
    { unfold r. apply Nat.Div0.div_lt_upper_bound. nia. }
    assert (Hrp : r = P * (r / P) + r mod P) by apply Nat.div_mod_eq.
    assert (Hp : r mod P < P) by (apply Nat.mod_upper_bound; lia).
    assert (Hc : r / P < C) by (apply Nat.Div0.div_lt_upper_bound; nia).
    replace n with (ravel [C; P; K] [r / P; r mod P; k]) at 1
      by (cbn [ravel prod fold_right]; nia).
    rewrite nth_tab by (repeat constructor; assumption).
    replace n with (ravel [C * P; K] [r; k])
      by (cbn [ravel prod fold_right]; nia).
    rewrite nth_tab by (repeat constructor; assumption).
    reflexivity.
Qed.

Lemma get_1 (a : ndarray) (P p : nat) :
  shape a = [P] -> get a [p] = nth p (data a) (Re Num.NaN).
Proof.
  intros Hs. unfold get. rewrite Hs. cbn [ravel prod fold_right].
  f_equal. lia.
Qed.

Lemma hessian_filter {E : Externals} (fb sdi : ndarray) (C P K : nat) :
  shape fb = [P] -> wf fb -> shape sdi = [C * P; K] -> wf sdi ->
  0 < P -> 0 < K ->
  (do _ <- (if 0 <? ndim fb then Ok tt else Raise IndexError);
   do _ <- (if 1 <? ndim sdi then Ok tt else Raise IndexError);
   do sdi <- reshape sdi [None; Some (nth 0 (shape fb) 0);
                          Some (nth 1 (shape sdi) 0)];
   do fb' <- new_axis 0 0 fb;
   do fb' <- new_axis (ndim fb') 0 fb';
   do filtered_sdi <- zip_with smul (amap np_sqrt fb') sdi;
   reshape filtered_sdi [None; Some (last (shape sdi) 0)])
  = Ok (spec_filtered_sdi fb sdi C P K).
Proof.
  intros Hfb Hwfb Hsdi Hwsdi HP HK. unfold ndim. rewrite Hfb, Hsdi.
  cbn [length Nat.ltb Nat.leb bind nth].
  pose proof (@reshape_infer_first sdi C [P; K]) as Hr. cbn [map] in Hr.
  rewrite Hr; clear Hr.
  2:{ unfold size. rewrite Hwsdi, Hsdi. cbn [prod fold_right]. lia. }
  2:{ cbn [prod fold_right]. nia. }
  cbn [bind]. unfold new_axis, ndim. rewrite Hfb.
  cbn [shape length Nat.leb andb firstn skipn app bind data last].
  unfold zip_with. cbn [shape amap].
  assert (Hbc : broadcast_shapes [1; P; 1] [C; P; K] = Ok [C; P; K]) by bc.
  rewrite Hbc. cbn [bind].
  pose proof (@reshape_infer_first
                {| shape := [C; P; K];
                   data := tab [C; P; K] (fun idx =>
                     smul (get (amap np_sqrt {| shape := [1; P; 1];
                                                data := data fb |})
                             (bc_index [1; P; 1] idx))
                          (get {| shape := [C; P; K]; data := data sdi |}
                             (bc_index [C; P; K] idx))) |}
                (C * P) [K]) as Hr.
  cbn [map] in Hr. rewrite Hr; clear Hr.
  2:{ unfold size. cbn [data]. rewrite length_tab. cbn [prod fold_right]. lia. }
  2:{ cbn [prod fold_right]. lia. }
  unfold spec_filtered_sdi. f_equal. f_equal. cbn [data]. rewrite tab_merge.
  apply tab_ext. intros idx Hidx.
  apply in_bounds_2_inv in Hidx. destruct Hidx as (r & k & -> & Hr & Hk).
  cbn [nth].
  assert (Hrp : r = P * (r / P) + r mod P) by apply Nat.div_mod_eq.
  assert (Hp : r mod P < P) by (apply Nat.mod_upper_bound; lia).
  assert (Hc : r / P < C) by (apply Nat.Div0.div_lt_upper_bound; nia).
  f_equal.
  - unfold bc_index. cbn [length Nat.sub skipn clamp].
    rewrite (get_1 fb (r mod P) Hfb).
    unfold get. cbn [shape data amap ravel prod fold_right Nat.eqb].
    rewrite (nth_indep _ _ (np_sqrt (Re Num.NaN))).
    + rewrite map_nth. f_equal. f_equal.
      destruct (P =? 1) eqn:HP1; [apply Nat.eqb_eq in HP1|]; lia.
    + rewrite length_map, Hwfb, Hfb. cbn [prod fold_right].
      destruct (P =? 1) eqn:HP1; [apply Nat.eqb_eq in HP1|]; lia.
  - rewrite bc_index_same by (repeat constructor; assumption).
    unfold get. rewrite Hsdi. cbn [shape data ravel prod fold_right].
    f_equal. nia.
Qed.

Lemma error_filter (fb F : ndarray) (P Cn : nat) :
  shape fb = [P] -> shape F = [P; Cn] ->
  (do fb' <- new_axis (ndim fb) 0 fb; zip_with smul fb' F)
  = Ok {| shape := [P; Cn];
          data := data (spec_filtered_error fb F P Cn) |}.
Proof.
  intros Hfb HF. unfold new_axis, ndim. rewrite Hfb.
  cbn [length Nat.leb andb firstn skipn app bind].
  unfold zip_with. cbn [shape]. rewrite HF.
  assert (Hbc : broadcast_shapes [P; 1] [P; Cn] = Ok [P; Cn]) by bc.
  rewrite Hbc. cbn [bind]. f_equal. f_equal. unfold spec_filtered_error.
  cbn [data]. apply tab_ext. intros idx Hidx.
  pose proof Hidx as Hidx'.
  apply in_bounds_2_inv in Hidx. destruct Hidx as (p & c & -> & Hp & Hc).
  cbn [nth]. f_equal.
  - unfold bc_index. cbn [length Nat.sub skipn clamp].
    rewrite (get_1 fb p Hfb).
    unfold get. cbn [shape data ravel prod fold_right Nat.eqb].
    f_equal. destruct (P =? 1) eqn:HP1; [apply Nat.eqb_eq in HP1|]; lia.
  - now rewrite bc_index_same.
Qed.

Lemma hessian_of_filter_bank {E : Externals}
  (sdi fb : ndarray) (P C K : nat) (self : residual) :
  _filter_bank self = Some fb -> shape fb = [P] -> wf fb ->
  shape sdi = [C * P; K] -> wf sdi -> 0 < P -> 0 < K ->
  GaborFourier.calculate_hessian sdi self
  = (Ok (cross (C * P) K K
           (amap sconj (spec_filtered_sdi fb sdi C P K))
           (spec_filtered_sdi fb sdi C P K)),
     self).
Proof.
  intros Hself Hfb Hwfb Hsdi Hwsdi HP HK.
  unfold GaborFourier.calculate_hessian.
  erewrite mbind_step by (unfold getattr; rewrite Hself; reflexivity).
  unfold lift.
  pose proof (@hessian_filter E fb sdi C P K Hfb Hwfb Hsdi Hwsdi HP HK) as Hf.
  unfold bind in Hf |- *.
  repeat match type of Hf with
         | match ?x with _ => _ end = _ =>
             destruct x; [|discriminate Hf]
         end.
  rewrite Hf. f_equal. now apply dot_transpose.
Qed.

Lemma update_of_filter_bank {E : Externals}
  (sdi fb : ndarray) (P : nat) (self : residual)
  (IWxp template : image) (error_img F : ndarray) :
  _filter_bank self = Some fb -> shape fb = [P] ->
  zip_with ssub (pixels IWxp) (pixels template) = Ok error_img ->
  reshape (fftshift (fftn error_img (seq 0 (n_dims IWxp)))
             (seq 0 (n_dims IWxp)))
    [None; Some (n_channels IWxp)] = Ok F ->
  shape F = [P; n_channels IWxp] ->
  GaborFourier.steepest_descent_update sdi IWxp template self
  = (dot (transpose sdi)
       (amap sconj (spec_filtered_error fb F P (n_channels IWxp))),
     set_error_img (spec_filtered_error fb F P (n_channels IWxp)) self).
Proof.
  intros Hself Hfb Hzip Hre HF.
  unfold GaborFourier.steepest_descent_update.
  erewrite mbind_step by (unfold lift; rewrite Hzip; reflexivity).
  erewrite mbind_step by (unfold lift; rewrite Hre; reflexivity).
  erewrite mbind_step by (unfold getattr; rewrite Hself; reflexivity).
  erewrite mbind_step
    by (unfold lift; rewrite (error_filter fb F Hfb HF); reflexivity).
  assert (Hflat : flatten {| shape := [P; n_channels IWxp];
                             data := data (spec_filtered_error fb F P
                                             (n_channels IWxp)) |}
                  = spec_filtered_error fb F P (n_channels IWxp)).
  { unfold flatten, spec_filtered_error, size. cbn [data].
    now rewrite length_tab, prod_2. }
  rewrite Hflat.
  erewrite mbind_step by reflexivity.
  reflexivity.
Qed.

(** C7. [GaborFourier] weighs the two sides differently.  On an object whose
    flattened filter bank [fb] has [P] weights: [calculate_hessian], given
    steepest descent images of [C * P] rows, scales the row of each pixel by
    the square root of the weight of the pixel and returns the product of
    the conjugate transpose of the scaled matrix by that matrix; and
    [steepest_descent_update] multiplies each pixel of the shifted transform
    of the error image by the weight itself, caches the flattened product as
    the error vector, and returns (or raises what raises)
    [sdi.T.dot(conjugate(error))]. *)
Theorem GaborFourier_weighting {E : Externals}
  (sdi fb : ndarray) (P : nat) (self : residual) :
  _filter_bank self = Some fb -> shape fb = [P] -> wf fb ->
  (forall C K,
      shape sdi = [C * P; K] -> wf sdi -> 0 < P -> 0 < K ->
      GaborFourier.calculate_hessian sdi self
      = (Ok (cross (C * P) K K
               (amap sconj (spec_filtered_sdi fb sdi C P K))
               (spec_filtered_sdi fb sdi C P K)),
         self))
  /\ (forall IWxp template error_img F,
         zip_with ssub (pixels IWxp) (pixels template) = Ok error_img ->
         reshape (fftshift (fftn error_img (seq 0 (n_dims IWxp)))
                    (seq 0 (n_dims IWxp)))
           [None; Some (n_channels IWxp)] = Ok F ->
         shape F = [P; n_channels IWxp] ->
         GaborFourier.steepest_descent_update sdi IWxp template self
         = (dot (transpose sdi)
              (amap sconj (spec_filtered_error fb F P (n_channels IWxp))),
            set_error_img (spec_filtered_error fb F P (n_channels IWxp)) self)).
Proof.
  intros Hself Hfb Hwfb. split.
  - intros C K Hsdi Hwsdi HP HK. now apply hessian_of_filter_bank.
  - intros IWxp template error_img F Hzip Hre HF.
    now apply update_of_filter_bank with (error_img := error_img).
Qed.

Lemma GaborFourier_weighting_witness :
  GaborFourier.calculate_hessian (E:=model) sdi_4x1 gabor_state
  = (Ok (cross (1 * 4) 1 1
           (amap sconj (spec_filtered_sdi (E:=model)
                          (flatten (full [2; 2] (real 4))) sdi_4x1 1 4 1))
           (spec_filtered_sdi (E:=model)
              (flatten (full [2; 2] (real 4))) sdi_4x1 1 4 1)),
     gabor_state)
  /\ GaborFourier.steepest_descent_update (E:=model) sdi_4x1 image_1234
       image_0000 gabor_state
     = (dot (transpose sdi_4x1)
          (amap sconj (spec_filtered_error (flatten (full [2; 2] (real 4)))
                         fft_error_2x2 4 1)),
        set_error_img (spec_filtered_error (flatten (full [2; 2] (real 4)))
                         fft_error_2x2 4 1) gabor_state).
Proof.
  destruct (@GaborFourier_weighting model sdi_4x1
              (flatten (full [2; 2] (real 4))) 4 gabor_state)
    as [Hhessian Hupdate]; try reflexivity.
  split.
  - apply Hhessian; try reflexivity; lia.
  - apply (Hupdate image_1234 image_0000 error_2x2 fft_error_2x2).
    + vm_compute. reflexivity.
    + vm_compute. reflexivity.
    + reflexivity.
Defined.

(** ** The second matrix of [calculate_hessian] *)

(** C3 (amended). Only [SSD.calculate_hessian] has a second parameter:
    given a second matrix it returns [sdi.T.dot(sdi2)], and [sdi.T.dot(sdi)]
    without one.  The other four classes declare one parameter, so that a
    call with a second matrix raises [TypeError]; with one matrix,
    [GradientImages] and [GradientCorrelation] return [sdi.T.dot(sdi)], [ECC]
    returns it once [scipy.linalg.inv] has inverted it and raises what the
    inversion raises otherwise, and [GaborFourier], over a filter bank [fb]
    of [P] weights and steepest descent images of [C * P] rows, returns
    [conj(F).T.dot(F)] for the matrix [F] whose row of each pixel is the row
    of [sdi] times the square root of the weight of the pixel. *)
Theorem calculate_hessian_second_matrix {E : Externals}
  (sdi sdi2 : ndarray) (self : residual) :
  calculate_hessian T_SSD sdi (Some sdi2) self = (dot (transpose sdi) sdi2, self)
  /\ calculate_hessian T_SSD sdi None self = (dot (transpose sdi) sdi, self)
  /\ (forall t, t <> T_SSD ->
        calculate_hessian t sdi (Some sdi2) self = (Raise TypeError, self))
  /\ calculate_hessian T_GradientImages sdi None self
     = (dot (transpose sdi) sdi, self)
  /\ calculate_hessian T_GradientCorrelation sdi None self
     = (dot (transpose sdi) sdi, self)
  /\ (forall H,
        dot (transpose sdi) sdi = Ok H ->
        calculate_hessian T_ECC sdi None self
        = match linalg_inv H with
          | Ok H_inv => (Ok H, set_H_inv H_inv self)
          | Raise e => (Raise e, self)
          end)
  /\ (forall fb P C K,
        _filter_bank self = Some fb -> shape fb = [P] -> wf fb ->
        shape sdi = [C * P; K] -> wf sdi -> 0 < P -> 0 < K ->
        let F := spec_filtered_sdi fb sdi C P K in
        calculate_hessian T_GaborFourier sdi None self
        = (dot (transpose (amap sconj F)) F, self)).
Proof.
  repeat split.
  - intros t Ht. destruct t; try reflexivity. contradiction.
  - intros H HH. cbn [calculate_hessian].
    unfold ECC.calculate_hessian, mbind, lift. rewrite HH.
    destruct (linalg_inv H); reflexivity.
  - intros fb P C K Hself Hfb Hwfb Hsdi Hwsdi HP HK F.
    cbn [calculate_hessian].
    rewrite (@hessian_of_filter_bank E sdi fb P C K self) by assumption.
    f_equal. symmetry. now apply dot_transpose.
Qed.

Lemma calculate_hessian_second_matrix_witness :
  calculate_hessian (E:=model) T_ECC (matrix_1x1 2) (Some (matrix_1x1 3)) fresh
  = (Raise TypeError, fresh)
  /\ calculate_hessian (E:=model) T_ECC (matrix_1x1 2) None fresh
     = match @linalg_inv model (cross 1 1 1 (matrix_1x1 2) (matrix_1x1 2)) with
       | Ok H_inv =>
           (Ok (cross 1 1 1 (matrix_1x1 2) (matrix_1x1 2)), set_H_inv H_inv fresh)
       | Raise e => (Raise e, fresh)
       end
  /\ calculate_hessian (E:=model) T_GaborFourier sdi_4x1 None gabor_state
     = (dot (transpose
               (amap sconj
                  (spec_filtered_sdi (E:=model)
                     (flatten (full [2; 2] (real 4))) sdi_4x1 1 4 1)))
          (spec_filtered_sdi (E:=model)
             (flatten (full [2; 2] (real 4))) sdi_4x1 1 4 1),
        gabor_state).
Proof.
  pose proof (@calculate_hessian_second_matrix model (matrix_1x1 2)
                (matrix_1x1 3) fresh) as (_ & _ & H3 & _ & _ & H6 & _).
  pose proof (@calculate_hessian_second_matrix model sdi_4x1 sdi_4x1
                gabor_state) as (_ & _ & _ & _ & _ & _ & H7).
  split; [|split].
  - apply H3. discriminate.
  - apply H6. apply dot_transpose; reflexivity.
  - apply (H7 (flatten (full [2; 2] (real 4))) 4 1 1); try reflexivity; lia.
Defined.

(** C3 as it is stated fails on [ECC]: the product [sdi.T.dot(sdi2)] exists,
    and the call with the second matrix raises [TypeError]. *)
Lemma calculate_hessian_second_matrix_counterexample :
  is_ok (dot (transpose (matrix_1x1 2)) (matrix_1x1 3)) = true
  /\ fst (calculate_hessian (E:=model) T_ECC (matrix_1x1 2)
            (Some (matrix_1x1 3)) fresh)
     = Raise TypeError
  /\ fst (calculate_hessian (E:=model) T_ECC (matrix_1x1 2)
            (Some (matrix_1x1 3)) fresh)
     <> dot (transpose (matrix_1x1 2)) (matrix_1x1 3).
Proof.
  split; [reflexivity|]. split; [reflexivity|].
  rewrite (@dot_transpose 1 1 1) by reflexivity. discriminate.
Qed.


(** ** The step size of [ECC] *)

(** C2 fails on the code.  On the template of three rows and three columns
    and the image that is its opposite once normalised, with the Jacobian of
    a translation, [steepest_descent_images] and [calculate_hessian] return;
    in [steepest_descent_update] the projection [Gt] of the template is
    zero, the denominator [den] is [-1], so that the branch [den <= 0] is
    taken; there [den3] is zero, [num2 / den3] is [0 / 0] and [-den / den3]
    is [1 / 0]: nothing is raised, and the step size, the cached error
    vector and the update are NaN. *)
Theorem ECC_fallback_step_not_finite :
  match degenerate_projections with
  | (Ok (G_t, num, num2, den), _) =>
      all_zero G_t = true
      /\ all_zero num2 = true
      /\ array_eqb den (scalar_array (real (-1))) = true
      /\ gt_zero den = Ok false
  | (Raise _, _) => False
  end
  /\ match ECC.fallback_lambda (E:=model) (scalar_array (real 0))
             (scalar_array (real (-1))) (scalar_array (real 0)) with
     | Ok l => all_nan l = true
     | Raise _ => False
     end
  /\ match degenerate_step with
     | (Ok l, _) => shape l = [] /\ all_nan l = true
     | (Raise _, _) => False
     end
  /\ match degenerate_update with
     | (Ok u, self') =>
         all_nan u = true /\ option_map all_nan (_error_img self') = Some true
     | (Raise _, _) => False
     end.
Proof. vm_compute. repeat split. Qed.

(** ** The constant image *)

Lemma list_eqb_eq (l l' : list scalar) :
  length l = length l' ->
  forallb (fun xy => seqb (fst xy) (snd xy)) (combine l l') = true ->
  l = l'.
Proof.
  revert l'. induction l as [|x l IH]; intros [|y l'] Hlen H; try discriminate.
  - reflexivity.
  - cbn in H. apply andb_true_iff in H. destruct H as [Hxy H].
    apply seqb_eq in Hxy. subst y. f_equal. apply IH; [now injection Hlen | exact H].
Qed.

Lemma array_eqb_eq (a b : ndarray) : array_eqb a b = true -> a = b.
Proof.
  unfold array_eqb. intros H.
  apply andb_true_iff in H. destruct H as [H Hd].
  apply andb_true_iff in H. destruct H as [Hs Hl].
  destruct (list_eq_dec Nat.eq_dec (shape a) (shape b)) as [Hs'|]; [|discriminate].
  apply Nat.eqb_eq in Hl. destruct a, b. cbn in *. subst.
  f_equal. now apply list_eqb_eq.
Qed.

Lemma image_eqb_eq (i j : image) :
  array_eqb (pixels i) (pixels j) = true -> mask i = mask j -> i = j.
Proof.
  intros Hp Hm. destruct i, j. cbn in *. apply array_eqb_eq in Hp. now subst.
Qed.

Lemma ok_image_eq (r : result image) (j : image) :
  (exists i, r = Ok i
             /\ array_eqb (pixels i) (pixels j) = true /\ mask i = mask j) ->
  r = Ok j.
Proof.
  intros (i & -> & Hp & Hm). f_equal. now apply image_eqb_eq.
Qed.

Lemma ssub_diag (q : Qc) : ssub (Re (Num.Fin q)) (Re (Num.Fin q)) = s0.
Proof. cbn [ssub]. now rewrite NumFacts.sub_diag. Qed.

Section ConstantImage.
Context {E : Externals}.
Variable q : Qc.

Hypothesis gradient_of_constant :
  Residual._calculate_gradients (constant_8x8 q) None
  = Ok (constant_image s0 2 [8; 8]).
Hypothesis sqrt_zero : np_sqrt s0 = s0.

Lemma mean_of_zeros :
  np_mean (amap square (zeros [64])) = s0.
Proof. apply seqb_eq. vm_compute. reflexivity. Qed.

Lemma error_of_zeros (self : residual) :
  _error_img self = Some (zeros [64]) -> Residual.error self = (Ok s0, self).
Proof.
  intros H. rewrite (error_of_cached self H). now rewrite mean_of_zeros, sqrt_zero.
Qed.

Lemma SSD_constant :
  iteration T_SSD (constant_8x8 q) (zero_jacobian T_SSD) (constant_8x8 q)
    (constant_8x8 q) fresh
  = (Ok (zeros [4], s0), set_error_img (zeros [64]) fresh).
Proof.
  unfold iteration. cbn [steepest_descent_images calculate_hessian
    steepest_descent_update zero_jacobian].
  erewrite (@mbind_step _ _ _ _ _ (zeros [64; 4]) fresh).
  2:{ unfold SSD.steepest_descent_images. rewrite gradient_of_constant.
      vm_compute. reflexivity. }
  erewrite (@mbind_step _ _ _ _ _ (zeros [4; 4]) fresh)
    by (vm_compute; reflexivity).
  erewrite (@mbind_step _ _ _ _ _ (zeros [4]) (set_error_img (zeros [64]) fresh)).
  2:{ unfold SSD.steepest_descent_update.
      erewrite (@mbind_step _ _ _ _ _ (zeros [64]) fresh).
      2:{ unfold lift. f_equal. cbv -[ssub]. rewrite ssub_diag. reflexivity. }
      erewrite (@mbind_step _ _ _ _ _ tt (set_error_img (zeros [64]) fresh))
        by reflexivity.
      vm_compute. reflexivity. }
  erewrite (@mbind_step _ _ _ _ _ s0 (set_error_img (zeros [64]) fresh))
    by (now apply error_of_zeros).
  reflexivity.
Qed.

Hypothesis gradient_of_zero :
  Residual._calculate_gradients (constant_image s0 2 [8; 8]) None
  = Ok (constant_image s0 4 [8; 8]).
Hypothesis cos_of_zero_angle : np_cos (np_angle c0) = s1.
Hypothesis sin_of_zero_angle : np_sin (np_angle c0) = s0.

Lemma amap_full (f : scalar -> scalar) (s : list nat) (x : scalar) :
  amap f (full s x) = full s (f x).
Proof. unfold amap, full. cbn [shape data]. now rewrite map_repeat. Qed.

(** The value of the computation at the head of the goal. *)
Ltac state_step :=
  cbn [_grad _cos_phi _sin_phi _N _error_img _filter_bank _H_inv _template_grad
       set_grad set_cos_phi set_sin_phi set_N set_error_img set_filter_bank set_H_inv set_template_grad fresh].

Ltac head_block_as V :=
  match goal with
  | |- match ?b with Ok _ => _ | Raise _ => _ end = _ =>
      replace b with (Ok V) by (vm_compute; reflexivity);
      cbn beta iota; state_step
  end.

Ltac head_block :=
  match goal with
  | |- match ?b with Ok _ => _ | Raise _ => _ end = _ =>
      let v := eval vm_compute in b in
      replace b with v by (vm_compute; reflexivity);
      cbn beta iota; state_step
  end.

Lemma GradientCorrelation_images_constant :
  GradientCorrelation.steepest_descent_images (constant_8x8 q)
    (zeros [2; 64; 4]) None fresh
  = (Ok (zeros [64; 4]), correlation_state).
Proof.
  unfold GradientCorrelation.steepest_descent_images.
  rewrite gradient_of_constant.
  unfold mbind, lift, setattr, getattr.
  state_step.
  head_block.
  head_block_as (full [1; 8; 8] (np_angle c0)).
  rewrite !amap_full, cos_of_zero_angle, sin_of_zero_angle.
  head_block.
  rewrite gradient_of_zero.
  repeat head_block.
  reflexivity.
Qed.

Lemma GradientCorrelation_constant :
  iteration T_GradientCorrelation (constant_8x8 q) (zero_jacobian T_GradientCorrelation)
    (constant_8x8 q) (constant_8x8 q) fresh
  = (Ok (zeros [4], s0), set_error_img (zeros [64]) correlation_state).
Proof.
  unfold iteration. cbn [steepest_descent_images calculate_hessian steepest_descent_update zero_jacobian].
  erewrite (@mbind_step _ _ _ _ _ (zeros [64; 4]) correlation_state)
    by apply GradientCorrelation_images_constant.
  erewrite (@mbind_step _ _ _ _ _ (zeros [4; 4]) correlation_state)
    by (vm_compute; reflexivity).
  erewrite (@mbind_step _ _ _ _ _ (zeros [4]) (set_error_img (zeros [64]) correlation_state)).
  2:{ unfold GradientCorrelation.steepest_descent_update.
      erewrite (@mbind_step _ _ _ _ _ _ (set_error_img (zeros [64]) correlation_state)).
      2:{ unfold GradientCorrelation.update_terms, GradientCorrelation.warped_orientation.
          rewrite gradient_of_constant.
          unfold mbind, lift, setattr, getattr, ret.
          state_step.
          head_block_as (full [1; 64] (np_angle c0)).
          rewrite !amap_full, cos_of_zero_angle, sin_of_zero_angle.
          unfold correlation_state. state_step.
          repeat head_block.
          reflexivity. }
      vm_compute. reflexivity. }
  erewrite (@mbind_step _ _ _ _ _ s0 (set_error_img (zeros [64]) correlation_state))
    by (now apply error_of_zeros).
  reflexivity.
Qed.

Hypothesis sqrt_complex_zero : np_sqrt c0 = c0.
Hypothesis transform_of_zeros_4 :
  fftshift (fftn (zeros [4; 8; 8]) [0; 1]) [0; 1] = full [4; 8; 8] c0.
Hypothesis transform_of_zeros_1 :
  fftshift (fftn (zeros [1; 8; 8]) [0; 1]) [0; 1] = full [1; 8; 8] c0.

Variable fb : ndarray.
Variable self : residual.
Hypothesis filter_bank_of_self : _filter_bank self = Some fb.
Hypothesis filter_bank_shape : shape fb = [64].
Hypothesis filter_bank_wf : wf fb.
Hypothesis filter_bank_real : Forall real_finite (data fb).

Lemma GaborFourier_images_constant :
  GaborFourier.steepest_descent_images (constant_8x8 q) (zeros [64; 4; 2])
    None self
  = (Ok (full [64; 4] c0), self).
Proof.
  unfold GaborFourier.steepest_descent_images.
  rewrite gradient_of_constant.
  unfold lift. f_equal. unfold bind.
  repeat head_block.
  match goal with
  | |- context [fftshift (fftn ?x ?a) ?b] =>
      change (fftshift (fftn x a) b)
        with (fftshift (fftn (zeros [4; 8; 8]) [0; 1]) [0; 1])
  end.
  rewrite transform_of_zeros_4. vm_compute. reflexivity.
Qed.

Lemma smul_real_zero (x : scalar) : real_finite x -> smul x c0 = c0.
Proof.
  intros [a ->]. unfold c0. cbn [smul re_part im_part].
  rewrite !NumFacts.mul_zero_r by reflexivity.
  rewrite NumFacts.add_zero_zero, NumFacts.sub_diag by reflexivity.
  reflexivity.
Qed.

Lemma filtered_zero_error :
  spec_filtered_error fb (full [64; 1] c0) 64 1 = full [64] c0.
Proof.
  unfold spec_filtered_error.
  rewrite (@tab_const _ [64; 1] _ c0); [reflexivity|].
  intros idx Hidx.
  rewrite get_full by exact Hidx.
  apply smul_real_zero.
  eapply Forall_forall; [exact filter_bank_real|].
  apply get_in; [exact filter_bank_wf|].
  rewrite filter_bank_shape.
  inversion Hidx; subst. constructor; [assumption | constructor].
Qed.

Lemma mean_of_complex_zeros :
  np_mean (amap square (full [64] c0)) = c0.
Proof. apply seqb_eq. vm_compute. reflexivity. Qed.

Lemma GaborFourier_constant :
  iteration T_GaborFourier (constant_8x8 q) (zero_jacobian T_GaborFourier)
    (constant_8x8 q) (constant_8x8 q) self
  = (Ok (full [4] c0, c0), set_error_img (full [64] c0) self).
Proof.
  unfold iteration. cbn [steepest_descent_images calculate_hessian
    steepest_descent_update zero_jacobian].
  erewrite (@mbind_step _ _ _ _ _ (full [64; 4] c0) self)
    by apply GaborFourier_images_constant.
  erewrite (@mbind_step _ _ _ _ _ _ self).
  2:{ apply (@hessian_of_filter_bank E (full [64; 4] c0) fb 64 1 4 self);
        try assumption; try reflexivity; lia. }
  erewrite (@mbind_step _ _ _ _ _ (full [4] c0) (set_error_img (full [64] c0) self)).
  2:{ erewrite (@update_of_filter_bank E (full [64; 4] c0) fb 64 self
                  (constant_8x8 q) (constant_8x8 q) (zeros [1; 8; 8])
                  (full [64; 1] c0)); try assumption; try reflexivity.
      - change (n_channels (constant_8x8 q)) with 1.
        rewrite filtered_zero_error. f_equal.
      - cbv -[ssub]. rewrite ssub_diag. reflexivity.
      - change (seq 0 (n_dims (constant_8x8 q))) with [0; 1].
        rewrite transform_of_zeros_1. vm_compute. reflexivity. }
  erewrite (@mbind_step _ _ _ _ _ c0 (set_error_img (full [64] c0) self)).
  2:{ erewrite error_of_cached by reflexivity.
      now rewrite mean_of_complex_zeros, sqrt_complex_zero. }
  reflexivity.
Qed.

End ConstantImage.

(** C1 (amended to the three classes that it holds of).  On the image of one
    channel, eight rows and eight columns whose pixels all have the value
    [q], with a Jacobian of four parameters that is zero everywhere and the
    image itself as the template: after [steepest_descent_images] and
    [calculate_hessian], [steepest_descent_update] of [SSD] and of
    [GradientCorrelation] returns the vector of four zeros and [error] is
    then [0.0]; [GaborFourier], over a filter bank of 64 finite real weights,
    returns the vector of four complex zeros and [error] is [0j].  What is
    assumed of numpy and menpo: the gradient of a constant image is zero, the
    transform of zeros is zeros, the square root of zero is zero and the
    angle of [0j] has cosine one and sine zero. *)
Theorem constant_image_zero_update {E : Externals} (q : Qc)
  (fb : ndarray) (self : residual) :
  Residual._calculate_gradients (constant_8x8 q) None
    = Ok (constant_image s0 2 [8; 8]) ->
  Residual._calculate_gradients (constant_image s0 2 [8; 8]) None
    = Ok (constant_image s0 4 [8; 8]) ->
  np_sqrt s0 = s0 -> np_sqrt c0 = c0 ->
  np_cos (np_angle c0) = s1 -> np_sin (np_angle c0) = s0 ->
  fftshift (fftn (zeros [4; 8; 8]) [0; 1]) [0; 1] = full [4; 8; 8] c0 ->
  fftshift (fftn (zeros [1; 8; 8]) [0; 1]) [0; 1] = full [1; 8; 8] c0 ->
  _filter_bank self = Some fb -> shape fb = [64] -> wf fb ->
  Forall real_finite (data fb) ->
  fst (iteration T_SSD (constant_8x8 q) (zero_jacobian T_SSD)
         (constant_8x8 q) (constant_8x8 q) fresh)
  = Ok (zeros [4], s0)
  /\ fst (iteration T_GradientCorrelation (constant_8x8 q)
            (zero_jacobian T_GradientCorrelation)
            (constant_8x8 q) (constant_8x8 q) fresh)
     = Ok (zeros [4], s0)
  /\ fst (iteration T_GaborFourier (constant_8x8 q)
            (zero_jacobian T_GaborFourier)
            (constant_8x8 q) (constant_8x8 q) self)
     = Ok (full [4] c0, c0).
Proof.
  intros Hg Hg0 Hsqrt Hsqrtc Hcos Hsin Hfft4 Hfft1 Hself Hshape Hwf Hreal.
  repeat split.
  - now rewrite SSD_constant.
  - now rewrite GradientCorrelation_constant.
  - now rewrite (@GaborFourier_constant E q Hg Hsqrtc Hfft4 Hfft1 fb self).
Qed.

Lemma constant_image_zero_update_witness :
  fst (iteration (E:=model) T_SSD (constant_8x8 (Q2Qc 5)) (zero_jacobian T_SSD)
         (constant_8x8 (Q2Qc 5)) (constant_8x8 (Q2Qc 5)) fresh)
  = Ok (zeros [4], s0)
  /\ fst (iteration (E:=model) T_GradientCorrelation (constant_8x8 (Q2Qc 5))
            (zero_jacobian T_GradientCorrelation)
            (constant_8x8 (Q2Qc 5)) (constant_8x8 (Q2Qc 5)) fresh)
     = Ok (zeros [4], s0)
  /\ fst (iteration (E:=model) T_GaborFourier (constant_8x8 (Q2Qc 5))
            (zero_jacobian T_GaborFourier)
            (constant_8x8 (Q2Qc 5)) (constant_8x8 (Q2Qc 5)) gabor_8x8)
     = Ok (full [4] c0, c0).
Proof.
  apply (@constant_image_zero_update model (Q2Qc 5)
           (flatten (full [8; 8] (real 3))) gabor_8x8).
  - apply ok_image_eq. vm_compute. eexists. repeat split.
  - apply ok_image_eq. vm_compute. eexists. repeat split.
  - apply seqb_eq. vm_compute. reflexivity.
  - apply seqb_eq. vm_compute. reflexivity.
  - apply seqb_eq. vm_compute. reflexivity.
  - apply seqb_eq. vm_compute. reflexivity.
  - apply array_eqb_eq. vm_compute. reflexivity.
  - apply array_eqb_eq. vm_compute. reflexivity.
  - reflexivity.
  - reflexivity.
  - reflexivity.
  - apply Forall_forall. intros x Hx.
    unfold flatten, full in Hx. cbn [data] in Hx.
    apply repeat_spec in Hx. subst x. eexists. reflexivity.
Defined.

Lemma constant_image_zero_update_counterexample :
  fst ECC_constant_run = Raise ValueError
  /\ fst (ECC.calculate_hessian (E:=model) (zeros [64; 4]) fresh)
     = Raise LinAlgError
  /\ match fst GradientImages_constant_run with
     | Ok (u, e) => (size u =? 4) && all_nan u && Model.is_nan e
     | Raise _ => false
     end = true.
Proof. vm_compute. repeat split. Qed.

(** * Properties of the helpers of [menpofit/base.py] *)

(** ** [batch] *)

Section BatchFacts.
Variable A : Type.
Implicit Types (it : list A) (n k : nat).

Lemma firstn_add n k it :
  firstn (n + k) it = firstn n it ++ firstn k (skipn n it).
Proof.
  revert it. induction n as [|n IH]; intros [|x it]; cbn [Nat.add firstn skipn app].
  - now destruct k.
  - reflexivity.
  - now destruct k.
  - now rewrite IH.
Qed.

Lemma rounded_up n len : 0 < n -> len <= (len + n - 1) / n * n.
Proof.
  intros Hn.
  pose proof (Nat.div_mod_eq (len + n - 1) n) as H.
  pose proof (Nat.mod_upper_bound (len + n - 1) n) as Hr.
  nia.
Qed.

Lemma rounded_up_step n len :
  0 < n -> 0 < len -> (len + n - 1) / n = S ((len - n + n - 1) / n).
Proof.
  intros Hn Hlen. destruct (Nat.le_gt_cases len n) as [Hle|Hgt].
  - replace (len - n + n - 1) with (n - 1) by lia.
    rewrite (Nat.div_small (n - 1) n) by lia.
    replace (len + n - 1) with ((len - 1) + 1 * n) by lia.
    rewrite Nat.div_add by lia. rewrite Nat.div_small by lia. reflexivity.
  - replace (len + n - 1) with ((len - n + n - 1) + 1 * n) by lia.
    rewrite Nat.div_add by lia. lia.
Qed.

(** The chunks that the loop yields, with enough turns. *)
Lemma batch_loop_chunks n :
  0 < n -> (Z.of_nat n <= Base.sys_maxsize)%Z ->
  forall fuel it,
    length it < fuel ->
    Base.batch_loop fuel it (Z.of_nat n)
    = Some (Ok (map (fun k => firstn n (skipn (k * n) it))
                  (seq 0 ((length it + n - 1) / n)))).
Proof.
  intros Hn Hmax. induction fuel as [|fuel IH]; intros it Hlt; [lia|].
  cbn [Base.batch_loop]. unfold Base.batch_next, Base.islice.
  replace (Z.of_nat n <? 0)%Z with false by (symmetry; apply Z.ltb_ge; lia).
  replace (Base.sys_maxsize <? Z.of_nat n)%Z with false
    by (symmetry; apply Z.ltb_ge; lia).
  cbn [orb].
  rewrite Nat2Z.id. cbn [bind fst snd].
  destruct it as [|x it].
  - rewrite firstn_nil. cbn [length Nat.add].
    rewrite Nat.div_small by lia. reflexivity.
  - assert (Hne : firstn n (x :: it) <> [])
      by (destruct n; [lia | discriminate]).
    destruct (firstn n (x :: it)) as [|y ys] eqn:Hf; [congruence|].
    rewrite <- Hf. clear Hne Hf y ys.
    rewrite IH by (rewrite length_skipn; cbn [length] in Hlt |- *; lia).
    rewrite (@rounded_up_step n (length (x :: it))) by (cbn [length]; lia).
    rewrite length_skipn. cbn [seq map]. rewrite <- seq_shift, map_map.
    change (skipn (0 * n) (x :: it)) with (x :: it).
    do 3 f_equal.
    apply map_ext. intros k. rewrite skipn_skipn.
    replace (k * n + n) with (S k * n) by lia. reflexivity.
Qed.

Lemma batch_chunks n it :
  0 < n -> (Z.of_nat n <= Base.sys_maxsize)%Z ->
  Base.batch it (Z.of_nat n)
  = Some (Ok (map (fun k => firstn n (skipn (k * n) it))
                (seq 0 ((length it + n - 1) / n)))).
Proof.
  intros Hn Hmax. unfold Base.batch. apply batch_loop_chunks; [lia | lia | lia].
Qed.

Lemma concat_chunks n it c :
  concat (map (fun k => firstn n (skipn (k * n) it)) (seq 0 c))
  = firstn (c * n) it.
Proof.
  induction c as [|c IH].
  - reflexivity.
  - rewrite seq_S, map_app, concat_app, IH. cbn [map concat Nat.add].
    rewrite app_nil_r, <- firstn_add. f_equal. lia.
Qed.

Lemma batch_chunks_of (it : list A) (n : Z) :
  (0 < n <= Base.sys_maxsize)%Z ->
  Base.batch it n
  = Some (Ok (map (fun k => firstn (Z.to_nat n) (skipn (k * Z.to_nat n) it))
                (seq 0 ((length it + Z.to_nat n - 1) / Z.to_nat n)))).
Proof.
  intros Hn. rewrite <- (Z2Nat.id n) at 1 by lia.
  apply batch_chunks; [lia | rewrite Z2Nat.id; lia].
Qed.

Lemma batch_refused (it : list A) (n : Z) :
  (n < 0)%Z \/ (Base.sys_maxsize < n)%Z ->
  Base.batch it n = Some (Raise ValueError).
Proof.
  intros Hn. unfold Base.batch. cbn [Base.batch_loop].
  unfold Base.batch_next, Base.islice.
  replace ((n <? 0)%Z || (Base.sys_maxsize <? n)%Z) with true; [reflexivity|].
  symmetry. apply orb_true_iff.
  destruct Hn as [Hn|Hn]; [left | right]; now apply Z.ltb_lt.
Qed.

Lemma batch_returned (it : list A) (n : Z) (chunks : list (list A)) :
  (0 < n)%Z -> Base.batch it n = Some (Ok chunks) ->
  (0 < n <= Base.sys_maxsize)%Z.
Proof.
  intros Hn H. split; [exact Hn|].
  destruct (Z.le_gt_cases n Base.sys_maxsize) as [Hle|Hgt]; [exact Hle|].
  rewrite batch_refused in H by (right; lia). discriminate.
Qed.

Lemma below_rounded_up n len k :
  0 < n -> k < (len + n - 1) / n -> k * n < len.
Proof.
  intros Hn Hk. pose proof (Nat.Div0.mul_div_le (len + n - 1) n). nia.
Qed.

Lemma before_last_chunk n len k :
  0 < n -> S k < (len + n - 1) / n -> n <= len - k * n.
Proof.
  intros Hn Hk. pose proof (Nat.Div0.mul_div_le (len + n - 1) n). nia.
Qed.

(** X1. [batch] cuts the iterable and loses nothing: for a positive [n]
    that [islice] accepts (at most [sys.maxsize]), the generator runs to its
    end and the chunks it yields, put end to end, are the items of the
    iterable in their order. *)
Theorem batch_concat (it : list A) (n : Z) :
  (0 < n <= Base.sys_maxsize)%Z ->
  exists chunks, Base.batch it n = Some (Ok chunks) /\ concat chunks = it.
Proof.
  intros Hn. eexists. split; [now apply batch_chunks_of|].
  rewrite concat_chunks. apply firstn_all2. apply rounded_up. lia.
Qed.

(** X2. The sizes of the chunks of [batch], for a positive [n]: no chunk is
    empty, none has more than [n] items, and every chunk but the last has
    exactly [n]. *)
Theorem batch_chunk_sizes (it : list A) (n : Z) (chunks : list (list A)) :
  (0 < n)%Z ->
  Base.batch it n = Some (Ok chunks) ->
  Forall (fun c => c <> [] /\ (Z.of_nat (length c) <= n)%Z) chunks
  /\ (forall k, S k < length chunks ->
        Z.of_nat (length (nth k chunks [])) = n).
Proof.
  intros Hn H. pose proof (batch_returned _ Hn H) as Hn'.
  rewrite batch_chunks_of in H by exact Hn'.
  injection H as <-. set (m := Z.to_nat n). split.
  - apply Forall_forall. intros c Hc. apply in_map_iff in Hc.
    destruct Hc as (k & <- & Hk). apply in_seq in Hk.
    assert (Hlt : k * m < length it) by (apply below_rounded_up; lia).
    split.
    + intros Hnil. apply (f_equal (@length A)) in Hnil.
      rewrite length_firstn, length_skipn in Hnil. cbn [length] in Hnil. lia.
    + rewrite length_firstn. lia.
  - intros k Hk. rewrite length_map, length_seq in Hk.
    rewrite (nth_indep _ [] (firstn m (skipn (0 * m) it)))
      by (rewrite length_map, length_seq; lia).
    rewrite (map_nth (fun k => firstn m (skipn (k * m) it))).
    rewrite seq_nth by lia. cbn [Nat.add].
    rewrite length_firstn, length_skipn.
    pose proof (@before_last_chunk m (length it) k). lia.
Qed.

(** X3. The number of chunks of [batch], for a positive [n]: the number of
    items over [n], rounded up. *)
Theorem batch_count (it : list A) (n : Z) (chunks : list (list A)) :
  (0 < n)%Z ->
  Base.batch it n = Some (Ok chunks) ->
  length chunks = (length it + Z.to_nat n - 1) / Z.to_nat n.
Proof.
  intros Hn H. pose proof (batch_returned _ Hn H) as Hn'.
  rewrite batch_chunks_of in H by exact Hn'.
  injection H as <-. now rewrite length_map, length_seq.
Qed.

(** X4. The edges of [batch]: with [n = 0] it yields nothing, whatever the
    iterable holds; an [n] that is negative or above [sys.maxsize] makes
    [islice] raise [ValueError], even on an empty iterable; and an empty
    iterable yields nothing for any other [n]. *)
Theorem batch_edges (it : list A) (n : Z) :
  Base.batch it 0 = Some (Ok [])
  /\ ((n < 0)%Z \/ (Base.sys_maxsize < n)%Z ->
      Base.batch it n = Some (Raise ValueError))
  /\ ((0 <= n <= Base.sys_maxsize)%Z -> Base.batch (@nil A) n = Some (Ok [])).
Proof.
  split; [reflexivity|]. split.
  - apply batch_refused.
  - intros Hn. unfold Base.batch. cbn [Base.batch_loop length].
    unfold Base.batch_next, Base.islice.
    replace (n <? 0)%Z with false by (symmetry; apply Z.ltb_ge; lia).
    replace (Base.sys_maxsize <? n)%Z with false
      by (symmetry; apply Z.ltb_ge; lia).
    cbn [orb bind fst snd]. now rewrite firstn_nil.
Qed.

End BatchFacts.

Lemma batch_concat_witness :
  exists chunks,
    Base.batch [1; 2; 3; 4; 5] 2 = Some (Ok chunks)
    /\ concat chunks = [1; 2; 3; 4; 5].
Proof. apply batch_concat. split; [reflexivity | discriminate]. Defined.

Lemma batch_chunk_sizes_witness :
  Forall (fun c => c <> [] /\ (Z.of_nat (length c) <= 2)%Z)
    [[1; 2]; [3; 4]; [5]]
  /\ (forall k, S k < length [[1; 2]; [3; 4]; [5]] ->
        Z.of_nat (length (nth k [[1; 2]; [3; 4]; [5]] [])) = 2%Z).
Proof.
  apply (@batch_chunk_sizes nat [1; 2; 3; 4; 5] 2); reflexivity.
Defined.

Lemma batch_count_witness :
  length [[1; 2]; [3; 4]; [5]] = (length [1; 2; 3; 4; 5] + 2 - 1) / 2.
Proof.
  apply (@batch_count nat [1; 2; 3; 4; 5] 2); reflexivity.
Defined.

Lemma batch_edges_witness :
  Base.batch [1; 2; 3] 0 = Some (Ok [])
  /\ Base.batch [1; 2; 3] (-1) = Some (Raise ValueError)
  /\ Base.batch (@nil nat) 4 = Some (Ok []).
Proof.
  destruct (@batch_edges nat [1; 2; 3] (-1)) as (H0 & Hneg & _).
  destruct (@batch_edges nat [1; 2; 3] 4) as (_ & _ & Hnil).
  split; [exact H0 | split].
  - apply Hneg. left. reflexivity.
  - apply Hnil. split; discriminate.
Defined.

(** ** Pyramids of feature images *)

Lemma nth_combine {A B : Type} (a : list A) (b : list B) (k : nat)
  (da : A) (db : B) :
  k < length a -> k < length b ->
  nth k (combine a b) (da, db) = (nth k a da, nth k b db).
Proof.
  revert b k. induction a as [|x a IH]; intros [|y b] [|k] Ha Hb;
    cbn [length] in *; try lia; cbn [combine nth]; [reflexivity|].
  apply IH; lia.
Qed.

(** X5. With a list of features, [pyramid_of_feature_images] stops at the
    shorter of the list and the pyramid: it yields as many images as there
    are features or levels, whichever is fewer, and raises nothing when the
    two numbers differ. *)
Theorem feature_pyramid_length {M : Base.Menpo} (n_levels : nat)
  (downscale : Qc) (fs : list (Base.Img -> Base.Img)) (image : Base.Img) :
  length (Base.pyramid_of_feature_images n_levels downscale
            (Base.feature_list fs) image)
  = Nat.min (length fs)
      (length (Base.gaussian_pyramid image n_levels downscale)).
Proof.
  cbn [Base.pyramid_of_feature_images]. unfold Base.feature_images.
  now rewrite length_map, length_combine, length_rev.
Qed.

(** X6. With a list of features, the features are taken from the end of the
    list: the image of level [k] of the result is the feature of index
    [len(features) - 1 - k] applied to level [k] of the pyramid, so that the
    last feature goes with the first level and, when there are more features
    than levels, the first features are the ones left out. *)
Theorem feature_pyramid_level {M : Base.Menpo} (n_levels : nat)
  (downscale : Qc) (fs : list (Base.Img -> Base.Img)) (image d : Base.Img)
  (k : nat) :
  k < length fs ->
  k < length (Base.gaussian_pyramid image n_levels downscale) ->
  nth k (Base.pyramid_of_feature_images n_levels downscale
           (Base.feature_list fs) image) d
  = nth (length fs - 1 - k) fs (fun x => x)
      (nth k (Base.gaussian_pyramid image n_levels downscale) d).
Proof.
  intros Hf Hp. cbn [Base.pyramid_of_feature_images].
  unfold Base.feature_images.
  set (pyramid := Base.gaussian_pyramid image n_levels downscale) in *.
  rewrite (nth_indep _ d ((fun p : (Base.Img -> Base.Img) * Base.Img =>
                             fst p (snd p)) (fun x => x, d)))
    by (rewrite length_map, length_combine, length_rev; lia).
  rewrite (map_nth (fun p : (Base.Img -> Base.Img) * Base.Img => fst p (snd p))).
  rewrite nth_combine by (rewrite ?length_rev; lia).
  cbn [fst snd]. rewrite rev_nth by lia.
  replace (length fs - S k) with (length fs - 1 - k) by lia. reflexivity.
Qed.

(** X7. [create_pyramid] returns one pyramid for each image, in the order of
    the images, when nothing is printed ([verbose] is false or [features] is
    a list) or when [print_progress] hands the images on as they are. *)
Theorem create_pyramid_per_image {M : Base.Menpo} (images : list Base.Img)
  (n_levels : nat) (downscale : Qc) (fs : Base.features) (verbose : bool) :
  Base.is_pyramid_on_features fs && verbose = false
  \/ Base.print_progress images = images ->
  length (Base.create_pyramid images n_levels downscale fs verbose)
  = length images
  /\ forall i d,
       i < length images ->
       nth i (Base.create_pyramid images n_levels downscale fs verbose) []
       = Base.pyramid_of_feature_images n_levels downscale fs (nth i images d).
Proof.
  intros H.
  assert (Hc : Base.create_pyramid images n_levels downscale fs verbose
               = map (Base.pyramid_of_feature_images n_levels downscale fs)
                   images).
  { unfold Base.create_pyramid.
    destruct (Base.is_pyramid_on_features fs && verbose);
      [|reflexivity].
    destruct H as [H|H]; [discriminate | now rewrite H]. }
  rewrite Hc. split; [apply length_map|].
  intros i d Hi.
  rewrite (nth_indep _ [] (Base.pyramid_of_feature_images n_levels downscale
                             fs d)) by (now rewrite length_map).
  apply (map_nth (Base.pyramid_of_feature_images n_levels downscale fs)).
Qed.

Lemma feature_pyramid_level_witness :
  nth 0 (Base.pyramid_of_feature_images 2 (Q2Qc 2)
           (Base.feature_list three_features) image_9) image_9
  = 309
  /\ nth 1 (Base.pyramid_of_feature_images 2 (Q2Qc 2)
              (Base.feature_list three_features) image_9) image_9
     = 204.
Proof.
  split.
  - apply (@feature_pyramid_level numbers 2 (Q2Qc 2) three_features
             image_9 image_9 0); cbn; lia.
  - apply (@feature_pyramid_level numbers 2 (Q2Qc 2) three_features
             image_9 image_9 1); cbn; lia.
Defined.

Lemma create_pyramid_per_image_witness :
  length (Base.create_pyramid two_images 2 (Q2Qc 2) successor true)
  = length two_images
  /\ forall i d,
       i < length two_images ->
       nth i (Base.create_pyramid two_images 2 (Q2Qc 2) successor true) []
       = Base.pyramid_of_feature_images 2 (Q2Qc 2) successor
           (nth i two_images d).
Proof.
  apply (@create_pyramid_per_image numbers two_images 2 (Q2Qc 2)
           successor true).
  right. reflexivity.
Defined.

(** ** [name_of_callable] *)

Lemma name_of_callable_ok (c : Base.callable) :
  exists s, Base.name_of_callable c = Ok s.
Proof.
  induction c as [name|c [s IH]|cls]; cbn [Base.name_of_callable Base.__name__].
  - now exists name.
  - rewrite IH. now exists s.
  - now exists cls.
Qed.

(** X8. [name_of_callable] never raises and looks through
    [functools.partial]: under any number of [partial] it gives the name of
    what they wrap, the [__name__] of a function, or the name of the class
    of an object that is called; the answer is the class name ['partial']
    for no callable built from these. *)
Theorem name_of_callable_through_partial (k : nat) (c : Base.callable)
  (name : String.string) :
  Base.name_of_callable (Nat.iter k Base.partial c) = Base.name_of_callable c
  /\ Base.name_of_callable (Nat.iter k Base.partial (Base.function name))
     = Ok name
  /\ Base.name_of_callable
       (Nat.iter k Base.partial (Base.callable_object name))
     = Ok name.
Proof.
  assert (H : forall c, Base.name_of_callable (Nat.iter k Base.partial c)
                        = Base.name_of_callable c).
  { intros c'. induction k as [|k IH]; [reflexivity|].
    rewrite Nat.iter_succ. cbn [Base.name_of_callable]. rewrite IH.
    now destruct (name_of_callable_ok c') as [s ->]. }
  split; [apply H|]. now rewrite !H.
Qed.

(** ** [build_grid] *)

Lemma grid_extent (s : Z) : (s / 2 + s mod 2 - - (s / 2) = s)%Z.
Proof. pose proof (Z.div_mod s 2). lia. Qed.

Lemma grid_refused (s : Z) : ((s / 2 + s mod 2 <? - (s / 2)) = (s <? 0))%Z.
Proof.
  pose proof (grid_extent s).
  destruct (Z.ltb_spec s 0); [apply Z.ltb_lt | apply Z.ltb_ge]; lia.
Qed.

Lemma build_grid_cases (h w : Z) (rest : list Z) :
  Base.build_grid (h :: w :: rest)
  = if (h <? 0)%Z || (w <? 0)%Z then Raise ValueError
    else Ok (Base.rollaxis_to_last
               (Base.mgrid_array (- (h / 2)) (h / 2 + h mod 2)
                  (- (w / 2)) (w / 2 + w mod 2))).
Proof.
  unfold Base.build_grid. cbn [map combine Base.item nth_error bind fst snd].
  unfold Base.mgrid. rewrite !grid_refused.
  now destruct ((h <? 0)%Z || (w <? 0)%Z).
Qed.

Lemma build_grid_ok (h w : Z) (rest : list Z) :
  (0 <= h)%Z -> (0 <= w)%Z ->
  Base.build_grid (h :: w :: rest)
  = Ok (Base.rollaxis_to_last
          (Base.mgrid_array (- (h / 2)) (h / 2 + h mod 2)
             (- (w / 2)) (w / 2 + w mod 2))).
Proof.
  intros Hh Hw. rewrite build_grid_cases.
  replace (h <? 0)%Z with false by (symmetry; apply Z.ltb_ge; lia).
  now replace (w <? 0)%Z with false by (symmetry; apply Z.ltb_ge; lia).
Qed.

Lemma grid_at (a0 b0 a1 b1 : Z) (i j d : nat) :
  i < Z.to_nat (b0 - a0) -> j < Z.to_nat (b1 - a1) -> d < 2 ->
  Base.int_at (Base.rollaxis_to_last (Base.mgrid_array a0 b0 a1 b1)) [i; j; d]
  = if d =? 0 then (a0 + Z.of_nat i)%Z else (a1 + Z.of_nat j)%Z.
Proof.
  intros Hi Hj Hd.
  unfold Base.rollaxis_to_last, Base.mgrid_array. cbn [Base.dims app].
  unfold Base.int_at at 1. cbn [Base.dims Base.ints].
  rewrite nth_tab
    by (unfold in_bounds; repeat (apply Forall2_cons; [assumption|]);
        apply Forall2_nil).
  cbn [last removelast]. unfold Base.int_at. cbn [Base.dims Base.ints].
  rewrite nth_tab
    by (unfold in_bounds; repeat (apply Forall2_cons; [assumption|]);
        apply Forall2_nil).
  destruct d as [|[|d]]; [reflexivity | reflexivity | lia].
Qed.

(** X9. The shape of [build_grid]: a shape of fewer than two entries raises
    [IndexError]; otherwise only the first two entries [h] and [w] are read,
    a negative one raises [ValueError] (numpy refuses the negative
    dimension), and when neither is negative the grid has [h] rows, [w]
    columns and two coordinates per position. *)
Theorem build_grid_shape (shape : list Z) :
  (length shape < 2 -> Base.build_grid shape = Raise IndexError)
  /\ (forall h w rest,
         shape = h :: w :: rest ->
         ((h < 0)%Z \/ (w < 0)%Z ->
          Base.build_grid shape = Raise ValueError)
         /\ ((0 <= h)%Z -> (0 <= w)%Z ->
             exists g,
               Base.build_grid shape = Ok g
               /\ Base.dims g = [Z.to_nat h; Z.to_nat w; 2]
               /\ length (Base.ints g) = Z.to_nat h * Z.to_nat w * 2)).
Proof.
  split.
  - intros H. destruct shape as [|h [|w rest]]; [reflexivity | reflexivity|].
    cbn [length] in H. lia.
  - intros h w rest ->. split.
    + intros Hneg. rewrite build_grid_cases.
      replace ((h <? 0)%Z || (w <? 0)%Z) with true; [reflexivity|].
      symmetry. apply orb_true_iff.
      destruct Hneg as [Hn|Hn]; [left | right]; now apply Z.ltb_lt.
    + intros Hh Hw. rewrite build_grid_ok by assumption.
      eexists. split; [reflexivity|].
      unfold Base.rollaxis_to_last, Base.mgrid_array.
      cbn [Base.dims Base.ints app].
      rewrite !grid_extent. split; [reflexivity|].
      rewrite length_tab. cbn [prod fold_right]. lia.
Qed.

(** X10. The values of [build_grid]: position [(i, j)] of the grid holds
    the pair [(i - h // 2, j - w // 2)], the offsets of the position from
    the centre. *)
Theorem build_grid_values (h w : Z) (rest : list Z) (g : Base.int_array)
  (i j : nat) :
  Base.build_grid (h :: w :: rest) = Ok g ->
  i < Z.to_nat h -> j < Z.to_nat w ->
  Base.int_at g [i; j; 0] = (Z.of_nat i - h / 2)%Z
  /\ Base.int_at g [i; j; 1] = (Z.of_nat j - w / 2)%Z.
Proof.
  intros Hg Hi Hj. rewrite build_grid_ok in Hg by lia. injection Hg as <-.
  rewrite !grid_at by (rewrite ?grid_extent; lia).
  cbn [Nat.eqb]. lia.
Qed.

(** X11. The grid of [build_grid] is centred: position [(h // 2, w // 2)]
    holds the origin [(0, 0)], and when [h] and [w] are odd the position
    opposite to [(i, j)] holds the opposite pair. *)
Theorem build_grid_centred (h w : Z) (rest : list Z) (g : Base.int_array) :
  Base.build_grid (h :: w :: rest) = Ok g ->
  (0 < h)%Z -> (0 < w)%Z ->
  (forall d, d < 2 ->
     Base.int_at g [Z.to_nat (h / 2); Z.to_nat (w / 2); d] = 0%Z)
  /\ (Z.odd h = true -> Z.odd w = true ->
      forall i j d,
        i < Z.to_nat h -> j < Z.to_nat w -> d < 2 ->
        Base.int_at g [Z.to_nat h - 1 - i; Z.to_nat w - 1 - j; d]
        = (- Base.int_at g [i; j; d])%Z).
Proof.
  intros Hg Hh Hw. rewrite build_grid_ok in Hg by lia. injection Hg as <-.
  pose proof (Z.div_mod h 2) as Dh. pose proof (Z.div_mod w 2) as Dw.
  pose proof (Z.mod_pos_bound h 2) as Mh.
  pose proof (Z.mod_pos_bound w 2) as Mw.
  split.
  - intros d Hd.
    rewrite grid_at by (rewrite ?grid_extent; lia).
    destruct (d =? 0); lia.
  - intros Oh Ow i j d Hi Hj Hd.
    apply Z.odd_spec in Oh. apply Z.odd_spec in Ow.
    destruct Oh as [mh Eh]. destruct Ow as [mw Ew].
    rewrite !grid_at by (rewrite ?grid_extent; lia).
    destruct (d =? 0); lia.
Qed.

Lemma build_grid_values_witness :
  Base.int_at grid_3x5 [0; 4; 0] = (Z.of_nat 0 - 3 / 2)%Z
  /\ Base.int_at grid_3x5 [0; 4; 1] = (Z.of_nat 4 - 5 / 2)%Z.
Proof.
  apply (@build_grid_values 3 5 [] grid_3x5 0 4);
    [reflexivity | cbn; lia | cbn; lia].
Defined.

Lemma build_grid_centred_witness :
  (forall d, d < 2 ->
     Base.int_at grid_3x5 [Z.to_nat (3 / 2); Z.to_nat (5 / 2); d] = 0%Z)
  /\ (Z.odd 3 = true -> Z.odd 5 = true ->
      forall i j d,
        i < Z.to_nat 3 -> j < Z.to_nat 5 -> d < 2 ->
        Base.int_at grid_3x5 [Z.to_nat 3 - 1 - i; Z.to_nat 5 - 1 - j; d]
        = (- Base.int_at grid_3x5 [i; j; d])%Z).
Proof.
  apply (@build_grid_centred 3 5 [] grid_3x5); reflexivity.
Defined.

(** * Further properties of the residual classes *)

(** ** What the methods write *)

Lemma keeps_part_lift {A B : Type} (part : residual -> B) (r : result A) :
  keeps part (lift r).
Proof. intros self. reflexivity. Qed.

Lemma keeps_part_ret {A B : Type} (part : residual -> B) (a : A) :
  keeps part (ret a).
Proof. intros self. reflexivity. Qed.

Lemma keeps_part_getattr {A B : Type} (part : residual -> B)
  (field : residual -> option A) : keeps part (getattr field).
Proof. intros self. unfold getattr. now destruct (field self). Qed.

Lemma keeps_part_setattr {B : Type} (part : residual -> B)
  (upd : residual -> residual) :
  (forall self, part (upd self) = part self) -> keeps part (setattr upd).
Proof. intros H self. apply H. Qed.

Lemma keeps_part_bind {A B C : Type} (part : residual -> C)
  (m : method A) (k : A -> method B) :
  keeps part m -> (forall a, keeps part (k a)) -> keeps part (mbind m k).
Proof.
  intros Hm Hk self. unfold mbind. specialize (Hm self).
  destruct (m self) as [[a|e] self1]; cbn [snd] in *.
  - now rewrite Hk.
  - exact Hm.
Qed.

Ltac keeps_part :=
  repeat first
    [ apply keeps_part_lift
    | apply keeps_part_ret
    | apply keeps_part_getattr
    | apply keeps_part_setattr; intros []; reflexivity
    | apply keeps_part_bind; [|intros]
    | match goal with
      | |- keeps _ (match ?x with _ => _ end) => destruct x
      | |- keeps _ (let (_, _) := ?x in _) => destruct x
      end ].

Ltac unfold_methods :=
  unfold SSD.steepest_descent_images, GaborFourier.steepest_descent_images,
    ECC.steepest_descent_images, GradientImages.steepest_descent_images,
    GradientCorrelation.steepest_descent_images,
    SSD.calculate_hessian, GaborFourier.calculate_hessian,
    ECC.calculate_hessian, GradientImages.calculate_hessian,
    GradientCorrelation.calculate_hessian,
    SSD.steepest_descent_update, GaborFourier.steepest_descent_update,
    ECC.steepest_descent_update, ECC.step_size, ECC.projections,
    GradientImages.steepest_descent_update,
    GradientCorrelation.steepest_descent_update,
    GradientCorrelation.update_terms.

(** X12. What [calculate_hessian] and [steepest_descent_update] write.
    [steepest_descent_update] of each of the five classes changes no
    attribute but the cached error vector, whether it returns or raises;
    [calculate_hessian] of [ECC] changes none but the cached inverse, and
    [calculate_hessian] of the four other classes leaves the object as it
    was. *)
Theorem update_and_hessian_writes {E : Externals} (t : residual_type)
  (sdi : ndarray) (sdi2 : option ndarray) (IWxp template : image) :
  keeps but_error_img (steepest_descent_update t sdi IWxp template)
  /\ keeps but_H_inv (calculate_hessian T_ECC sdi sdi2)
  /\ (t <> T_ECC -> keeps (fun self => self) (calculate_hessian t sdi sdi2)).
Proof.
  repeat split.
  - destruct t; cbn [steepest_descent_update]; unfold_methods; keeps_part.
  - destruct sdi2; cbn [calculate_hessian]; unfold_methods; keeps_part.
  - intros Ht. destruct t, sdi2; try congruence; cbn [calculate_hessian];
      unfold_methods; keeps_part.
Qed.

(** X13. What [steepest_descent_images] writes.  For [SSD], [GaborFourier]
    and [ECC] it leaves the object as it was; for [GradientImages] it changes
    no attribute but the cached template gradient; for [GradientCorrelation]
    it changes none of the cached error vector, the filter bank, the cached
    inverse and the template gradient. *)
Theorem images_writes {E : Externals} (img : image) (dW_dp : ndarray)
  (forward : option (image * transform)) :
  (forall t, t = T_SSD \/ t = T_GaborFourier \/ t = T_ECC ->
     keeps (fun self => self) (steepest_descent_images t img dW_dp forward))
  /\ keeps but_template_grad
       (steepest_descent_images T_GradientImages img dW_dp forward)
  /\ keeps but_orientations
       (steepest_descent_images T_GradientCorrelation img dW_dp forward).
Proof.
  repeat split.
  - intros t [-> | [-> | ->]]; cbn [steepest_descent_images];
      unfold_methods; keeps_part.
  - cbn [steepest_descent_images]; unfold_methods; keeps_part.
  - cbn [steepest_descent_images]; unfold_methods; keeps_part.
Qed.

Lemma images_writes_witness :
  keeps (fun self => self)
    (steepest_descent_images (E:=model) T_SSD template_3x3 translation_3x3 None).
Proof.
  apply (proj1 (@images_writes model template_3x3 translation_3x3 None)).
  left. reflexivity.
Defined.

(** ** The order of the calls *)

(** X14. [steepest_descent_update] of [ECC], [GradientImages] and
    [GradientCorrelation] reads an attribute that an earlier call sets (the
    cached inverse of [calculate_hessian], the template gradient and the
    orientations of [steepest_descent_images]): on an object without it the
    call returns nothing, it raises, and the object is left as it was, with
    no error vector cached. *)
Theorem update_needs_earlier_call {E : Externals} (t : residual_type)
  (sdi : ndarray) (IWxp template : image) (self : residual) :
  unprepared t self ->
  exists e, steepest_descent_update t sdi IWxp template self = (Raise e, self).
Proof.
  intros H. destruct t; cbn [unprepared] in H; try contradiction;
    cbn [steepest_descent_update]; unfold_methods;
    unfold mbind, lift, getattr; rewrite ?H;
    repeat match goal with
           | |- context [match ?r with Ok _ => _ | Raise _ => _ end] =>
               destruct r
           end;
    eexists; reflexivity.
Qed.

Lemma update_needs_earlier_call_witness :
  exists e,
    steepest_descent_update (E:=model) T_ECC sdi_2x1 image_3_5 image_1_1 fresh
    = (Raise e, fresh).
Proof.
  apply (@update_needs_earlier_call model T_ECC). reflexivity.
Defined.

(** ** Shapes that do not fit *)

(** X15. The Hessian of [SSD] from two matrices: with steepest descent
    images of [n] rows and [k] columns and a second matrix of [n'] rows and
    [m] columns, [calculate_hessian] returns a matrix of [k] rows and [m]
    columns when [n = n'], and raises [ValueError] when the numbers of rows
    differ. *)
Theorem SSD_hessian_of_two (J J2 : ndarray)
  (n n' k m : nat) (self : residual) :
  shape J = [n; k] -> shape J2 = [n'; m] ->
  (n = n' ->
   exists H, SSD.calculate_hessian J (Some J2) self = (Ok H, self)
             /\ shape H = [k; m] /\ wf H)
  /\ (n <> n' ->
      SSD.calculate_hessian J (Some J2) self = (Raise ValueError, self)).
Proof.
  intros HJ HJ2. unfold SSD.calculate_hessian, lift, dot, transpose.
  cbn [shape]. rewrite HJ, HJ2. cbn [rev app]. split.
  - intros <-. rewrite Nat.eqb_refl. eexists. split; [reflexivity|].
    split; [reflexivity|]. unfold wf. cbn [data shape]. apply length_tab.
  - intros Hn. apply Nat.eqb_neq in Hn. now rewrite Hn.
Qed.

Lemma SSD_hessian_of_two_witness :
  (2 = 2 ->
   exists H, SSD.calculate_hessian sdi_2x1 (Some sdi_2x1) fresh
             = (Ok H, fresh)
             /\ shape H = [1; 1] /\ wf H)
  /\ (2 <> 2 ->
      SSD.calculate_hessian sdi_2x1 (Some sdi_2x1) fresh
      = (Raise ValueError, fresh)).
Proof.
  apply (@SSD_hessian_of_two sdi_2x1 sdi_2x1 2 2 1 1 fresh); reflexivity.
Defined.

(** X16. [SSD.steepest_descent_update] on two images whose vectors differ
    in length, neither being of length one (which numpy would broadcast):
    the subtraction raises [ValueError] and nothing is cached. *)
Theorem SSD_update_of_two_sizes (sdi : ndarray) (IWxp template : image)
  (self : residual) :
  size (as_vector IWxp) <> size (as_vector template) ->
  size (as_vector IWxp) <> 1 -> size (as_vector template) <> 1 ->
  SSD.steepest_descent_update sdi IWxp template self
  = (Raise ValueError, self).
Proof.
  intros Hab Ha Hb. unfold SSD.steepest_descent_update, mbind, lift, zip_with.
  change (shape (as_vector IWxp)) with [size (as_vector IWxp)].
  change (shape (as_vector template)) with [size (as_vector template)].
  unfold broadcast_shapes, pad. cbn [length Nat.max Nat.sub repeat app bc_shape].
  unfold bc_dim.
  apply Nat.eqb_neq in Hab, Ha, Hb. now rewrite Hab, Ha, Hb.
Qed.

Lemma SSD_update_of_two_sizes_witness :
  SSD.steepest_descent_update sdi_2x1 image_3_5 template_3x3 fresh
  = (Raise ValueError, fresh).
Proof.
  apply SSD_update_of_two_sizes; vm_compute; discriminate.
Defined.

Lemma wf_as_vector (img : image) : wf (as_vector img).
Proof. unfold wf, as_vector, of_list. cbn [shape data prod fold_right]. lia. Qed.

(** X17. [SSD.steepest_descent_update] on an image and itself: when the
    pixels of the vector are finite reals, the error vector that is cached
    is zero at every pixel. *)
Theorem SSD_update_of_same_image (sdi : ndarray) (img : image)
  (self : residual) :
  Forall real_finite (data (as_vector img)) ->
  _error_img (snd (SSD.steepest_descent_update sdi img img self))
  = Some (zeros [size (as_vector img)]).
Proof.
  intros Hfin. unfold SSD.steepest_descent_update, mbind, lift.
  rewrite (@zip_same ssub (as_vector img) (as_vector img)
             [size (as_vector img)]) by reflexivity.
  rewrite (@tab_const _ [size (as_vector img)] _ s0).
  - unfold setattr. now destruct (dot _ _).
  - intros idx Hidx.
    assert (Hin : In (get (as_vector img) idx) (data (as_vector img)))
      by (apply get_in; [apply wf_as_vector | exact Hidx]).
    destruct (proj1 (Forall_forall _ _) Hfin _ Hin) as [q ->].
    apply ssub_diag.
Qed.

Lemma SSD_update_of_same_image_witness :
  _error_img (snd (SSD.steepest_descent_update sdi_2x1 image_3_5 image_3_5
                     fresh))
  = Some (zeros [size (as_vector image_3_5)]).
Proof.
  apply SSD_update_of_same_image.
  apply Forall_forall. intros x Hx. vm_compute in Hx.
  destruct Hx as [<- | [<- | []]]; eexists; reflexivity.
Defined.

(** ** The cached inverse of [ECC] *)

(** X18. [ECC.calculate_hessian] returns the same matrix
    [sdi.T.dot(sdi)] as [SSD] and caches its inverse; when the inversion
    raises, the call raises the same and the object keeps the inverse it
    had. *)
Theorem ECC_hessian_caches_inverse {E : Externals} (sdi H : ndarray)
  (self : residual) :
  SSD.calculate_hessian sdi None self = (Ok H, self) ->
  (forall H_inv, linalg_inv H = Ok H_inv ->
     ECC.calculate_hessian sdi self = (Ok H, set_H_inv H_inv self))
  /\ (forall e, linalg_inv H = Raise e ->
        ECC.calculate_hessian sdi self = (Raise e, self)).
Proof.
  unfold SSD.calculate_hessian, ECC.calculate_hessian, mbind, lift, setattr,
    ret.
  intros HH. injection HH as HH. rewrite HH.
  split; intros x Hx; now rewrite Hx.
Qed.

(** X19. [GaborFourier.calculate_hessian] needs as many rows as a whole
    number of filter banks: with a filter bank of [P] weights and steepest
    descent images of [n] rows, [n] not a multiple of [P], the reshape
    raises [ValueError] and the object is left as it was. *)
Theorem GaborFourier_hessian_rows {E : Externals} (sdi fb : ndarray)
  (n K P : nat) (self : residual) :
  _filter_bank self = Some fb -> shape fb = [P] ->
  shape sdi = [n; K] -> wf sdi ->
  n mod P <> 0 ->
  GaborFourier.calculate_hessian sdi self = (Raise ValueError, self).
Proof.
  intros Hself Hfb Hsdi Hwf Hmod.
  unfold GaborFourier.calculate_hessian, mbind, getattr, lift.
  rewrite Hself. unfold ndim. rewrite Hfb, Hsdi.
  cbn [length Nat.ltb Nat.leb bind nth].
  unfold reshape. cbn [unknowns filter length].
  unfold known, size. cbn [map]. rewrite Hwf, Hsdi.
  cbn [prod fold_right].
  destruct (1 * (P * (K * 1)) =? 0) eqn:Hz; cbn [orb]; [reflexivity|].
  apply Nat.eqb_neq in Hz.
  replace (n * (K * 1)) with (n * K) by lia.
  replace (1 * (P * (K * 1))) with (P * K) in * by lia.
  rewrite Nat.Div0.mul_mod_distr_r.
  assert (Hne : n mod P * K <> 0) by nia.
  apply Nat.eqb_neq in Hne. now rewrite Hne.
Qed.

Lemma ECC_hessian_caches_inverse_witness :
  exists H,
    SSD.calculate_hessian sdi_2x1 None fresh = (Ok H, fresh)
    /\ (forall H_inv, linalg_inv (Externals:=model) H = Ok H_inv ->
          ECC.calculate_hessian (E:=model) sdi_2x1 fresh
          = (Ok H, set_H_inv H_inv fresh))
    /\ (forall e, linalg_inv (Externals:=model) H = Raise e ->
          ECC.calculate_hessian (E:=model) sdi_2x1 fresh = (Raise e, fresh)).
Proof.
  assert (Hrun : exists H,
             SSD.calculate_hessian sdi_2x1 None fresh = (Ok H, fresh)).
  { vm_compute. eexists. reflexivity. }
  destruct Hrun as [H HH]. exists H. split; [exact HH|].
  exact (@ECC_hessian_caches_inverse model sdi_2x1 H fresh HH).
Defined.

Lemma GaborFourier_hessian_rows_witness :
  GaborFourier.calculate_hessian (E:=model) sdi_2x1 gabor_state
  = (Raise ValueError, gabor_state).
Proof.
  apply (@GaborFourier_hessian_rows model sdi_2x1
           (flatten (full [2; 2] (real 4))) 2 1 4 gabor_state);
    try reflexivity.
  cbn. discriminate.
Defined.

(** ** Regularised gradients *)

(** X20. [GradientImages._regularise_gradients] on a gradient image whose
    pixels have a channel axis: it raises nothing, not even where the
    magnitude and its median are zero, and the image it returns has the
    mask of the gradient image and pixels of the same shape. *)
Theorem regularised_gradient_shape {E : Externals} (grad : image)
  (n : nat) (s : list nat) :
  shape (pixels grad) = n :: s ->
  exists g,
    GradientImages._regularise_gradients grad = Ok g
    /\ mask g = mask grad
    /\ shape (pixels g) = shape (pixels grad)
    /\ wf (pixels g).
Proof.
  intros Hs. destruct (regularise_shape grad Hs) as (q & Hq & Hsq & Hwq).
  eexists. split; [exact Hq|]. cbn [mask pixels]. rewrite Hs. auto.
Qed.

Lemma regularised_gradient_shape_witness :
  exists g,
    GradientImages._regularise_gradients (E:=model) (constant_image s0 2 [8; 8])
    = Ok g
    /\ mask g = mask (constant_image s0 2 [8; 8])
    /\ shape (pixels g) = shape (pixels (constant_image s0 2 [8; 8]))
    /\ wf (pixels g).
Proof.
  apply (@regularised_gradient_shape model (constant_image s0 2 [8; 8])
           2 [8; 8]).
  reflexivity.
Defined.

(** ** The three calls of [SSD] in their order *)

(** X21. The shapes through the three calls of [SSD].  For an image of [C]
    channels whose gradient is computed (numpy refuses an axis of fewer than
    two pixels) and has [P] pixels in its mask, a Jacobian of shape
    [(n_dims, P, K)] and two images whose vectors have [C * P] entries:
    [steepest_descent_images] returns a matrix of [C * P] rows and [K]
    columns, [calculate_hessian] on it a matrix of [K] rows and columns, and
    [steepest_descent_update] a vector of [K] entries, after caching an
    error vector of [C * P] entries. *)
Theorem SSD_shapes_through_calls {E : Externals}
  (img grad IWxp template : image)
  (dW_dp : ndarray) (forward : option (image * transform))
  (self : residual) (P K : nat) :
  Residual._calculate_gradients img forward = Ok grad ->
  size (as_vector grad) = n_dims img * n_channels img * P ->
  shape dW_dp = [n_dims img; P; K] ->
  0 < n_dims img -> 0 < n_channels img -> 0 < K ->
  size (as_vector IWxp) = n_channels img * P ->
  size (as_vector template) = n_channels img * P ->
  exists sdi H u e,
    SSD.steepest_descent_images img dW_dp forward self = (Ok sdi, self)
    /\ shape sdi = [n_channels img * P; K]
    /\ SSD.calculate_hessian sdi None self = (Ok H, self)
    /\ shape H = [K; K]
    /\ SSD.steepest_descent_update sdi IWxp template self
       = (Ok u, set_error_img e self)
    /\ shape e = [n_channels img * P]
    /\ shape u = [K].
Proof.
  intros Hg Hv HdW HD HC HK HI HT.
  destruct (@SSD_images_shape E img dW_dp forward grad self P K Hg Hv HdW HD
              HC HK) as (sdi & Hsdi & Hs & Hw).
  assert (HsI : shape (as_vector IWxp) = [n_channels img * P])
    by (rewrite <- HI; reflexivity).
  assert (HsT : shape (as_vector template) = [n_channels img * P])
    by (rewrite <- HT; reflexivity).
  pose proof (@zip_same ssub _ _ _ HsI HsT) as He.
  eexists sdi, _, _, _. split; [exact Hsdi|]. split; [exact Hs|].
  split.
  { unfold SSD.calculate_hessian, lift, dot, transpose. cbn [shape].
    rewrite Hs. cbn [rev app]. rewrite Nat.eqb_refl. reflexivity. }
  split; [reflexivity|].
  split.
  { unfold SSD.steepest_descent_update, mbind, lift, setattr.
    rewrite He. unfold dot, transpose. cbn [shape]. rewrite Hs.
    cbn [rev app]. rewrite Nat.eqb_refl. reflexivity. }
  split; reflexivity.
Qed.

Lemma SSD_shapes_through_calls_witness :
  exists sdi H u e,
    SSD.steepest_descent_images (E:=model) template_3x3 translation_3x3 None
      fresh = (Ok sdi, fresh)
    /\ shape sdi = [n_channels template_3x3 * 9; 1]
    /\ SSD.calculate_hessian sdi None fresh = (Ok H, fresh)
    /\ shape H = [1; 1]
    /\ SSD.steepest_descent_update sdi warped_3x3 template_3x3 fresh
       = (Ok u, set_error_img e fresh)
    /\ shape e = [n_channels template_3x3 * 9]
    /\ shape u = [1].
Proof.
  apply (@SSD_shapes_through_calls model template_3x3 gradient_3x3 warped_3x3
           template_3x3 translation_3x3 None fresh 9 1);
    try (vm_compute; reflexivity); cbn; lia.
Defined.

(** X22. The earlier call sets what [steepest_descent_update] reads: once
    [steepest_descent_images] of [GradientImages] or of
    [GradientCorrelation] has returned, the template gradient, respectively
    the orientations, are cached, and once [calculate_hessian] of [ECC] has
    returned, the inverse is. *)
Theorem earlier_call_prepares {E : Externals} (img : image)
  (dW_dp sdi : ndarray) (forward : option (image * transform))
  (self : residual) :
  (forall t r self',
      t = T_GradientImages \/ t = T_GradientCorrelation ->
      steepest_descent_images t img dW_dp forward self = (Ok r, self') ->
      ~ unprepared t self')
  /\ (forall H self',
         calculate_hessian T_ECC sdi None self = (Ok H, self') ->
         ~ unprepared T_ECC self').
Proof.
  split.
  - intros t r self' [-> | ->] H; cbn [steepest_descent_images unprepared] in *.
    + unfold GradientImages.steepest_descent_images in H. minv H.
      rewrite Hg. discriminate.
    + unfold GradientCorrelation.steepest_descent_images in H. minv H.
      match type of H with
      | (let (_, _) := ?p in _) _ = _ => destruct p as [h w]
      end.
      minv H. cbn. discriminate.
  - intros H self' Hc. cbn [calculate_hessian unprepared] in *.
    unfold ECC.calculate_hessian in Hc. minv Hc. discriminate.
Qed.

Lemma earlier_call_prepares_witness :
  ~ unprepared T_ECC
      (snd (calculate_hessian (E:=model) T_ECC sdi_2x1 None fresh)).
Proof.
  assert (Hrun : exists H,
             calculate_hessian (E:=model) T_ECC sdi_2x1 None fresh
             = (Ok H, snd (calculate_hessian (E:=model) T_ECC sdi_2x1 None
                             fresh))).
  { vm_compute. eexists. reflexivity. }
  destruct Hrun as [H HH].
  exact (proj2 (@earlier_call_prepares model template_3x3 translation_3x3
                  sdi_2x1 None fresh) H _ HH).
Defined.
